(** * Resolwe: a shallow embedding of four source files

    - [resolwe/flow/filters.py]: query-parameter validation of the filter sets;
    - [resolwe/flow/migrations/0033_move_purged.py]: the backfill of
      [DataLocation.purged];
    - [resolwe/flow/serializers/relation.py]: creation and update of a
      [Relation] with its partitions inside [transaction.atomic];
    - [resolwe/flow/executors/__main__.py]: the executor bootstrap.

    Python dictionaries and database tables are finite maps, Python sets are
    finite sets, exceptions are an explicit result type, and the calls made to
    collaborators that live outside these files are recorded in a trace. *)

From stdpp Require Import gmap strings list fin_maps.
From Stdlib Require Import ZArith NArith Ascii Lia.

Local Open Scope string_scope.

(** ** Code with a state that may raise *)

Module Effect.

(** The outcome of running Python code: a value or an exception. *)
Inductive result (E A : Type) :=
| Ok (a : A)
| Raise (e : E).
Arguments Ok {E A} a.
Arguments Raise {E A} e.

(** Code that reads and writes a state of type [S] and may raise an
    exception of type [E].  When it raises, the state returned is the one
    reached at that point. *)
Definition M (S E A : Type) : Type := S → S * result E A.

Definition ret {S E A} (a : A) : M S E A := λ s, (s, Ok a).
Definition raise {S E A} (e : E) : M S E A := λ s, (s, Raise e).
Definition bind {S E A B} (m : M S E A) (k : A → M S E B) : M S E B :=
  λ s, match m s with
       | (s', Ok a) => k a s'
       | (s', Raise e) => (s', Raise e)
       end.

Notation "x <- m ;; k" := (bind m (λ x, k))
  (at level 100, m at next level, right associativity).
Notation "m ;;; k" := (bind m (λ _, k))
  (at level 100, right associativity).

End Effect.

(** ** Query-parameter validation ([filters.py]) *)

Module Filters.

(** The filter sets that inherit [CheckQueryParamsMixin] through
    [BaseResolweFilter]. *)
Inductive FilterClass :=
| BaseResolweFilter
| DescriptorSchemaFilter
| BaseCollectionFilter
| CollectionFilter
| EntityFilter
| ProcessFilter
| DataFilter
| RelationFilter.

(** [CheckQueryParamsMixin.get_always_allowed_arguments]. *)
Definition mixin_always_allowed_arguments : list string :=
  ["fields"; "format"; "limit"; "offset"; "ordering"].

(** Method resolution of [get_always_allowed_arguments]: only
    [RelationFilter] overrides it, extending the result of [super()]. *)
Definition get_always_allowed_arguments (c : FilterClass) : list string :=
  match c with
  | RelationFilter =>
      mixin_always_allowed_arguments ++ ["entity"; "label"; "position"]
  | _ => mixin_always_allowed_arguments
  end.

(** [rest_framework.exceptions.ParseError(msg)]. *)
Inductive FormError := ParseError (msg : string).

(** A filter set instance at validation time.  [get_filters] is what the
    framework's [self.get_filters()] returns (declared filters, filters
    generated from [Meta.fields] and filters injected by the metaclass);
    only its keys are used.  [query_params] is the request's multi-valued
    [QueryDict].  [form_errors] are the non-field errors of [self.form]. *)
Record FilterSet := {
  cls : FilterClass;
  get_filters : gmap string unit;
  query_params : gmap string (list string);
  form_errors : list FormError;
}.

Definition add_error (e : FormError) (fs : FilterSet) : FilterSet :=
  {| cls := cls fs;
     get_filters := get_filters fs;
     query_params := query_params fs;
     form_errors := form_errors fs ++ [e] |}.

(** [allowed_params = set(self.get_filters().keys());
    allowed_params.update(self.get_always_allowed_arguments())]. *)
Definition allowed_params (fs : FilterSet) : gset string :=
  dom (get_filters fs) ∪ list_to_set (get_always_allowed_arguments (cls fs)).

(** [unallowed = set(self.request.query_params.keys()) - allowed_params]. *)
Definition unallowed (fs : FilterSet) : gset string :=
  dom (query_params fs) ∖ allowed_params fs.

(** The text of the error.  Python joins the two sets in their iteration
    order, which the language leaves unspecified; [elements] plays that
    role here. *)
Definition unsupported_msg (una allowed : gset string) : string :=
  "Unsupported parameter(s): " ++ String.concat ", " (elements una)
  ++ ". Please use a combination of: "
  ++ String.concat ", " (elements allowed) ++ ".".

(** [CheckQueryParamsMixin.validate_query_params]: an empty set is falsy. *)
Definition validate_query_params (fs : FilterSet) : FilterSet :=
  if decide (unallowed fs = ∅) then fs
  else add_error
         (ParseError (unsupported_msg (unallowed fs) (allowed_params fs))) fs.

(** The framework's [FilterSet.is_valid]: the form is bound and carries no
    error.  [form_is_valid] stands for the outcome of the form's own field
    validation. *)
Definition super_is_valid (form_is_valid : bool) (fs : FilterSet) : bool :=
  form_is_valid && bool_decide (form_errors fs = []).

(** [CheckQueryParamsMixin.is_valid]. *)
Definition is_valid (form_is_valid : bool) (fs : FilterSet)
  : FilterSet * bool :=
  let fs' := validate_query_params fs in
  (fs', super_is_valid form_is_valid fs').

(** The names a request may use, as the specification words it. *)
Definition spec_allowed (fs : FilterSet) : gset string :=
  dom (get_filters fs)
  ∪ {[ "fields"; "format"; "limit"; "offset"; "ordering" ]}
  ∪ (match cls fs with
     | RelationFilter => {[ "entity"; "label"; "position" ]}
     | _ => ∅
     end).

(** *** The filters of two endpoints

    The lookup tables of the module and the [Meta.fields] of the base, data
    and relation filter sets.  The framework names the filter of a field and
    a lookup [field__lookup], and just [field] for the lookup [exact]; a
    filter declared in the class body replaces a generated one of the same
    name. *)
Definition RELATED_LOOKUPS : list string := ["exact"; "in"].
Definition NUMBER_LOOKUPS : list string :=
  ["exact"; "in"; "gt"; "gte"; "lt"; "lte"; "isnull"].
Definition TEXT_LOOKUPS : list string :=
  ["exact"; "iexact"; "contains"; "icontains"; "in"; "startswith";
   "istartswith"; "isnull"].
Definition DATE_LOOKUPS : list string :=
  ["exact"; "gt"; "gte"; "lt"; "lte"; "isnull"].
Definition DATETIME_LOOKUPS : list string := DATE_LOOKUPS ++ ["date"; "time"].
Definition SLUG_LOOKUPS : list string := ["exact"; "in"].

Definition BaseResolweFilter_Meta_fields : list (string * list string) :=
  [("contributor", ["exact"; "in"]);
   ("created", DATETIME_LOOKUPS);
   ("id", NUMBER_LOOKUPS);
   ("name", TEXT_LOOKUPS);
   ("modified", DATETIME_LOOKUPS);
   ("slug", SLUG_LOOKUPS);
   ("version", NUMBER_LOOKUPS)].

Definition DataFilter_Meta_fields : list (string * list string) :=
  BaseResolweFilter_Meta_fields
  ++ [("collection", RELATED_LOOKUPS);
      ("collection__name", TEXT_LOOKUPS);
      ("collection__slug", SLUG_LOOKUPS);
      ("entity", RELATED_LOOKUPS);
      ("entity__name", TEXT_LOOKUPS);
      ("entity__slug", SLUG_LOOKUPS);
      ("process", RELATED_LOOKUPS);
      ("process__name", TEXT_LOOKUPS);
      ("process__slug", SLUG_LOOKUPS);
      ("finished", DATETIME_LOOKUPS);
      ("started", DATETIME_LOOKUPS);
      ("status", ["exact"; "in"])].

(** [RelationFilter.Meta.fields = BaseResolweFilter.Meta.fields]. *)
Definition RelationFilter_Meta_fields : list (string * list string) :=
  BaseResolweFilter_Meta_fields.

Definition filter_name (field lookup : string) : string :=
  if decide (lookup = "exact") then field else field ++ "__" ++ lookup.

(** The keys of [get_filters()] of a class without extensions: the names
    generated from [Meta.fields] and the names declared in the class body
    and in its bases. *)
Definition filter_names (fields : list (string * list string))
    (declared : list string) : gmap string unit :=
  list_to_map
    ((λ n, (n, ()))
       <$> (declared
            ++ mjoin ((λ fl, filter_name fl.1 <$> fl.2) <$> fields))%list).

Definition DataFilter_declared : list string :=
  ["contributor"; "contributor_name"; "owners"; "owners_name"; "tags";
   "text"; "type"; "type__exact"].

Definition RelationFilter_declared : list string :=
  ["contributor"; "category"; "collection"; "type"].

(** Two requests with the same parameters: [label] is always allowed on the
    relation endpoint and is no filter of the data endpoint. *)
Definition relation_request : FilterSet :=
  {| cls := RelationFilter;
     get_filters := filter_names RelationFilter_Meta_fields
                      RelationFilter_declared;
     query_params := {[ "label" := ["case"]; "type" := ["group"] ]};
     form_errors := [] |}.

Definition data_request : FilterSet :=
  {| cls := DataFilter;
     get_filters := filter_names DataFilter_Meta_fields DataFilter_declared;
     query_params := {[ "label" := ["case"]; "type" := ["group"] ]};
     form_errors := [] |}.

(** *** The metaclass ([ResolweFilterMetaclass]) *)

Inductive error := KeyError (key : string).

Section Metaclass.

(** The values held by a class namespace, Python's [str] on them, and the
    extensions the composer has registered under a class path.  An
    extension is given by the names [dir(extension)] lists, in its order,
    each with the value [getattr(extension, name)] returns. *)
Context {V : Type} (str : V → string).
Context (get_extensions : string → list (list (string * V))).

(** One round of the inner loop: the loop variable is bound to the listed
    name, and unless that name starts with two underscores the namespace
    entry of that name is set. *)
Definition inject (acc : string * gmap string V) (item : string * V)
  : string * gmap string V :=
  if String.prefix "__" item.1 then (item.1, acc.2)
  else (item.1, <[item.1 := item.2]> acc.2).

(** [ResolweFilterMetaclass.__new__], up to the call of
    [super().__new__(mcs, name, bases, namespace)], whose last three
    arguments it returns.  The inner loop variable is the parameter [name]
    itself. *)
Definition metaclass_new (name : string) (bases : list string)
    (namespace : gmap string V)
  : Effect.result error (string * list string * gmap string V) :=
  match namespace !! "__module__" with
  | None => Effect.Raise (KeyError "__module__")
  | Some module =>
      let class_path := str module ++ "." ++ name in
      let acc :=
        foldl (λ acc extension, foldl inject acc extension)
              (name, namespace) (get_extensions class_path) in
      Effect.Ok (acc.1, bases, acc.2)
  end.

End Metaclass.

(** A request that only pages and orders. *)
Definition paging_request : FilterSet :=
  {| cls := ProcessFilter;
     get_filters := {[ "category" := () ]};
     query_params := {[ "limit" := ["10"]; "offset" := ["20"];
                        "ordering" := ["-id"] ]};
     form_errors := [] |}.

(** A data filter extended by a package: the extension class declares
    [Meta] and [my_field]; [dir] lists them in sorted order among the names
    every class has. *)
Definition sample_extension : list (string * string) :=
  [("Meta", "<class Meta>"); ("__doc__", "None");
   ("__module__", "my_app.extensions"); ("__weakref__", "<attribute>");
   ("my_field", "<CharFilter>"); ("tags", "<MyTagsFilter>")].

Definition sample_get_extensions (class_path : string)
  : list (list (string * string)) :=
  if decide (class_path = "resolwe.flow.filters.DataFilter")
  then [sample_extension] else [].

Definition sample_namespace : gmap string string :=
  {[ "__module__" := "resolwe.flow.filters";
     "__qualname__" := "DataFilter";
     "tags" := "<TagsFilter>";
     "text" := "<CharFilter>" ]}.

End Filters.

(** ** The backfill of [DataLocation.purged] (migration [0033_move_purged]) *)

Module Migration0033.

(** Schema before the migration: [Data] carries [purged], [DataLocation]
    does not.  [location] is the nullable foreign key whose reverse
    accessor on [DataLocation] is [data]. *)
Record DataLocation0 := { subpath0 : string }.

Record Data := {
  location : option Z;
  purged : bool;
}.

(** Schema between [AddField] and [RemoveField]. *)
Record DataLocation := {
  subpath : string;
  dl_purged : bool;
}.

(** Schema after [RemoveField]. *)
Record Data1 := { location1 : option Z }.

(** Tables are keyed by primary key. *)
Record Db0 := {
  locations0 : gmap Z DataLocation0;
  data0 : gmap Z Data;
}.

Record Db := {
  locations : gmap Z DataLocation;
  data : gmap Z Data;
}.

Record Db1 := {
  locations1 : gmap Z DataLocation;
  data1 : gmap Z Data1;
}.

(** [migrations.AddField("datalocation", "purged",
    BooleanField(default=False))]: every existing row gets the default. *)
Definition add_field_purged (db : Db0) : Db :=
  {| locations :=
       (λ r, {| subpath := subpath0 r; dl_purged := false |}) <$> locations0 db;
     data := data0 db |}.

(** [data_location.data]: the rows of [Data] that point to the location. *)
Definition related_data (db : Db) (pk : Z) : gmap Z Data :=
  filter (λ kd, location kd.2 = Some pk) (data db).

(** [data_location.data.filter(purged=True).exists()]. *)
Definition has_purged_data (db : Db) (pk : Z) : bool :=
  bool_decide (filter (λ kd, purged kd.2 = true) (related_data db pk) ≠ ∅).

(** [data_location.save()]: the row of the object's primary key is written
    with the object's fields. *)
Definition save (pk : Z) (obj : DataLocation) (db : Db) : Db :=
  {| locations := <[pk := obj]> (locations db); data := data db |}.

(** The body of the [for] loop for one fetched object. *)
Definition mark_one (db : Db) (row : Z * DataLocation) : Db :=
  if has_purged_data db row.1
  then save row.1 {| subpath := subpath row.2; dl_purged := true |} db
  else db.

(** [mark_purged_locations]: [DataLocation.objects.all()] is fetched once,
    then the loop runs over the fetched objects. *)
Definition mark_purged_locations (db : Db) : Db :=
  foldl mark_one db (map_to_list (locations db)).

(** [migrations.RemoveField("data", "purged")]. *)
Definition remove_field_purged (db : Db) : Db1 :=
  {| locations1 := locations db;
     data1 := (λ d, {| location1 := location d |}) <$> data db |}.

(** [Migration.operations], in order. *)
Definition operations (db : Db0) : Db1 :=
  remove_field_purged (mark_purged_locations (add_field_purged db)).

(** *** Sample data

    Location 1 has a purged and a live [Data] row, location 2 has a live row
    only, location 3 has none; one purged row has no location. *)
Definition sample_db : Db0 :=
  {| locations0 :=
       {[ 1%Z := {| subpath0 := "a" |};
          2%Z := {| subpath0 := "b" |};
          3%Z := {| subpath0 := "c" |} ]};
     data0 :=
       {[ 10%Z := {| location := Some 1%Z; purged := true |};
          11%Z := {| location := Some 1%Z; purged := false |};
          12%Z := {| location := Some 2%Z; purged := false |};
          13%Z := {| location := None; purged := true |} ]} |}.

(** A database in which a location without data is purged already. *)
Definition purged_db : Db :=
  {| locations := {[ 7%Z := {| subpath := "x"; dl_purged := true |};
                     8%Z := {| subpath := "y"; dl_purged := false |} ]};
     data := {[ 1%Z := {| location := Some 8%Z; purged := false |} ]} |}.

End Migration0033.

(** ** Creating and updating a [Relation] ([serializers/relation.py]) *)

Module RelationSerializer.
Import Effect.

(** Values found in validated data and in rows. *)
Inductive value :=
| VNone
| VInt (z : Z)
| VStr (s : string).

(** A row of [RelationPartition]; [relation] is the foreign key. *)
Record RelationPartition := {
  relation : Z;
  entity : value;
  label : value;
  position : value;
}.

(** The two tables the serializer writes, keyed by primary key.  A row of
    [Relation] maps column names to values. *)
Record Database := {
  relation_table : gmap Z (gmap string value);
  partition_table : gmap Z RelationPartition;
}.

Inductive exception :=
| KeyError (key : string)
| DatabaseError (what : string)
| SerializerError (what : string).

(** Code that reads and writes the database and may raise.  When it raises,
    the database returned is the one reached at that point: writes made
    before the exception are visible until somebody rolls them back. *)
Definition DBM (A : Type) : Type := M Database exception A.

(** A model instance held by Python: its primary key and attributes. *)
Record Instance := {
  pk : Z;
  attrs : gmap string value;
}.

(** [validated_data]: the plain fields and, under the key
    [relationpartition_set], the list of partition dictionaries (absent
    when the request did not send [partitions]). *)
Record ValidatedData := {
  fields : gmap string value;
  relationpartition_set : option (list (gmap string value));
}.

(** What the serializer relies on and these files do not define: the
    database's verdict on a row to be written ([Some] names the violated
    constraint), its verdict when the outermost block commits, and the
    inherited [update] of the base serializer. *)
Record Backend := {
  relation_check : Database → gmap string value → option string;
  partition_check : Database → RelationPartition → option string;
  commit_check : Database → option string;
  super_update : Instance → gmap string value → DBM Instance;
}.

Section WithBackend.
Context (B : Backend).

(** [with transaction.atomic(): body]: an exception leaving the block
    restores the database of the block's entry and is raised again. *)
Definition transaction_atomic {A} (body : DBM A) : DBM A :=
  λ db, match body db with
        | (db', Ok a) =>
            match commit_check B db' with
            | None => (db', Ok a)
            | Some c => (db, Raise (DatabaseError c))
            end
        | (_, Raise e) => (db, Raise e)
        end.

(** [Relation.objects.create] with the validated fields as keyword
    arguments. *)
Definition Relation_objects_create (row : gmap string value)
  : DBM Instance :=
  λ db, match relation_check B db row with
        | Some c => (db, Raise (DatabaseError c))
        | None =>
            let k := fresh (dom (relation_table db)) in
            ({| relation_table := <[k := row]> (relation_table db);
                partition_table := partition_table db |},
             Ok {| pk := k; attrs := row |})
        end.

(** [RelationPartition.objects.create(...)]. *)
Definition RelationPartition_objects_create (row : RelationPartition)
  : DBM unit :=
  λ db, match partition_check B db row with
        | Some c => (db, Raise (DatabaseError c))
        | None =>
            let k := fresh (dom (partition_table db)) in
            ({| relation_table := relation_table db;
                partition_table := <[k := row]> (partition_table db) |},
             Ok ())
        end.

(** The row built from one partition dictionary: [partition['entity']]
    raises [KeyError] when the key is missing, [.get(key, None)] does
    not. *)
Definition partition_row (instance : Instance)
    (partition : gmap string value)
  : result exception RelationPartition :=
  match partition !! "entity" with
  | None => Raise (KeyError "entity")
  | Some e =>
      Ok {| relation := pk instance;
            entity := e;
            label := default VNone (partition !! "label");
            position := default VNone (partition !! "position") |}
  end.

(** [RelationSerializer._create_partitions]. *)
Fixpoint _create_partitions (instance : Instance)
    (partitions : list (gmap string value)) : DBM unit :=
  match partitions with
  | [] => ret ()
  | partition :: rest =>
      match partition_row instance partition with
      | Raise e => raise e
      | Ok row =>
          RelationPartition_objects_create row ;;;
          _create_partitions instance rest
      end
  end.

(** [validated_data.pop('relationpartition_set', {})]: iterating the
    default [{}] visits nothing. *)
Definition pop_partitions (validated_data : ValidatedData)
  : list (gmap string value) * gmap string value :=
  (default [] (relationpartition_set validated_data),
   fields validated_data).

(** [RelationSerializer.create]. *)
Definition create (validated_data : ValidatedData) : DBM Instance :=
  let '(partitions, validated_data) := pop_partitions validated_data in
  transaction_atomic (
    instance <- Relation_objects_create validated_data ;;
    _create_partitions instance partitions ;;;
    ret instance).

(** [instance.relationpartition_set.all().delete()]. *)
Definition delete_partitions (instance : Instance) : DBM unit :=
  λ db, ({| relation_table := relation_table db;
            partition_table :=
              filter (λ kr, relation kr.2 ≠ pk instance)
                     (partition_table db) |},
         Ok ()).

(** [RelationSerializer.update]. *)
Definition update (instance : Instance) (validated_data : ValidatedData)
  : DBM Instance :=
  let '(partitions, validated_data) := pop_partitions validated_data in
  transaction_atomic (
    instance <- super_update B instance validated_data ;;
    delete_partitions instance ;;;
    _create_partitions instance partitions ;;;
    ret instance).

(** The partitions of a relation stored in the database. *)
Definition partitions_of (k : Z) (db : Database)
  : gmap Z RelationPartition :=
  filter (λ kr, relation kr.2 = k) (partition_table db).

End WithBackend.

(** The rows stored for a relation, without their primary keys. *)
Definition stored_rows (k : Z) (db : Database) : list RelationPartition :=
  (map_to_list (partitions_of k db)).*2.

(** The [update] that the framework's model serializer provides: every
    validated field is set on the instance, which is then saved. *)
Definition model_serializer_update
    (check : Database → gmap string value → option string)
    (instance : Instance) (validated_data : gmap string value)
  : DBM Instance :=
  λ db,
    let row := validated_data ∪ attrs instance in
    match check db row with
    | Some c => (db, Raise (DatabaseError c))
    | None =>
        ({| relation_table := <[pk instance := row]> (relation_table db);
            partition_table := partition_table db |},
         Ok {| pk := pk instance; attrs := row |})
    end.

(** A stored row is the partition the input gives for the relation [k]: it
    belongs to [k], its entity is the one given, and its label and position
    are the ones given, or [None] where the input gives none. *)
Definition row_as_given (k : Z) (partition : gmap string value)
    (row : RelationPartition) : Prop :=
  relation row = k
  ∧ partition !! "entity" = Some (entity row)
  ∧ label row = match partition !! "label" with
                | Some given => given
                | None => VNone
                end
  ∧ position row = match partition !! "position" with
                   | Some given => given
                   | None => VNone
                   end.

(** *** Sample data

    A backend whose relation rows need a [collection], whose partition rows
    need an integer [entity], and whose inherited [update] is the model
    serializer's. *)
Definition needs_collection (db : Database) (row : gmap string value)
  : option string :=
  match row !! "collection" with
  | Some (VInt _) => None
  | _ => Some "flow_relation.collection_id"
  end.

Definition needs_entity (db : Database) (row : RelationPartition)
  : option string :=
  match entity row with
  | VInt _ => None
  | _ => Some "flow_relationpartition.entity_id"
  end.

Definition sample_backend : Backend :=
  {| relation_check := needs_collection;
     partition_check := needs_entity;
     commit_check := λ _, None;
     super_update := model_serializer_update needs_collection |}.

(** One relation (primary key 1) with two partitions, and a partition of
    another relation. *)
Definition relations_db : Database :=
  {| relation_table :=
       {[ 1%Z := {[ "collection" := VInt 7; "category" := VStr "old" ]} ]};
     partition_table :=
       {[ 1%Z := {| relation := 1; entity := VInt 10;
                    label := VNone; position := VNone |};
          2%Z := {| relation := 1; entity := VInt 11;
                    label := VStr "b"; position := VNone |};
          3%Z := {| relation := 5; entity := VInt 12;
                    label := VNone; position := VNone |} ]} |}.

Definition sample_instance : Instance :=
  {| pk := 1; attrs := {[ "collection" := VInt 7; "category" := VStr "old" ]} |}.

(** Two partitions, both well formed. *)
Definition good_data : ValidatedData :=
  {| fields := {[ "collection" := VInt 7; "category" := VStr "new" ]};
     relationpartition_set :=
       Some [ {[ "entity" := VInt 20; "position" := VInt 1 ]};
              {[ "entity" := VInt 21; "label" := VStr "case" ]} ] |}.

(** The second partition lacks [entity]. *)
Definition bad_data : ValidatedData :=
  {| fields := {[ "collection" := VInt 7; "category" := VStr "new" ]};
     relationpartition_set :=
       Some [ {[ "entity" := VInt 20 ]}; {[ "label" := VStr "case" ]} ] |}.


(** A request that does not send [partitions]. *)
Definition no_partitions_data : ValidatedData :=
  {| fields := {[ "collection" := VInt 7; "category" := VStr "new" ]};
     relationpartition_set := None |}.


(** A backend whose database accepts every row. *)
Definition lenient_backend : Backend :=
  {| relation_check := λ _ _, None;
     partition_check := λ _ _, None;
     commit_check := λ _, None;
     super_update := model_serializer_update (λ _ _, None) |}.

End RelationSerializer.

(** ** The executor bootstrap ([executors/__main__.py]) *)

Module Bootstrap.
Import Effect.

(** *** Text files

    A Python [str] is a sequence of code points; a file holds bytes.
    [open(path, "rt")] names no encoding, so the text layer decodes with
    the locale's preferred encoding, and with the default [newline=None] it
    turns every line ending into a line feed. *)

Definition text := list N.

Inductive Encoding := UTF_8 | Latin_1 | ASCII.

Definition between (lo hi b : N) : bool := (lo <=? b)%N && (b <=? hi)%N.

(** Continuation byte [10xxxxxx]. *)
Definition is_cont (b : N) : bool := between 0x80 0xBF b.

(** Bounds of the second byte of a three- or four-byte sequence: they
    exclude overlong forms, surrogates and code points above [0x10FFFF]. *)
Definition second_lo (b0 : N) : N :=
  if (b0 =? 0xE0)%N then 0xA0 else if (b0 =? 0xF0)%N then 0x90 else 0x80.
Definition second_hi (b0 : N) : N :=
  if (b0 =? 0xED)%N then 0x9F else if (b0 =? 0xF4)%N then 0x8F else 0xBF.

(** The strict UTF-8 decoder; [None] is [UnicodeDecodeError]. *)
Fixpoint utf8_decode (bs : list N) : option text :=
  match bs with
  | [] => Some []
  | b0 :: r0 =>
      if (b0 <? 0x80)%N then cons b0 <$> utf8_decode r0
      else if between 0xC2 0xDF b0 then
        match r0 with
        | b1 :: r1 =>
            if is_cont b1
            then cons ((b0 - 0xC0) * 64 + (b1 - 0x80))%N <$> utf8_decode r1
            else None
        | _ => None
        end
      else if between 0xE0 0xEF b0 then
        match r0 with
        | b1 :: b2 :: r2 =>
            if between (second_lo b0) (second_hi b0) b1 && is_cont b2
            then cons ((b0 - 0xE0) * 4096 + (b1 - 0x80) * 64
                       + (b2 - 0x80))%N <$> utf8_decode r2
            else None
        | _ => None
        end
      else if between 0xF0 0xF4 b0 then
        match r0 with
        | b1 :: b2 :: b3 :: r3 =>
            if between (second_lo b0) (second_hi b0) b1
               && is_cont b2 && is_cont b3
            then cons ((b0 - 0xF0) * 262144 + (b1 - 0x80) * 4096
                       + (b2 - 0x80) * 64 + (b3 - 0x80))%N
                   <$> utf8_decode r3
            else None
        | _ => None
        end
      else None
  end.

Definition ascii_decode (bs : list N) : option text :=
  if forallb (λ b, (b <? 0x80)%N) bs then Some bs else None.

Definition decode (enc : Encoding) (content : list Byte.byte) : option text :=
  let bs := Byte.to_N <$> content in
  match enc with
  | UTF_8 => utf8_decode bs
  | Latin_1 => Some bs
  | ASCII => ascii_decode bs
  end.

(** Universal newlines: [\r\n] and a lone [\r] are read as [\n]. *)
Fixpoint translate_newlines (t : text) : text :=
  match t with
  | [] => []
  | c :: rest =>
      if (c =? 13)%N then
        10%N :: match rest with
                | c' :: rest' =>
                    if (c' =? 10)%N then translate_newlines rest'
                    else translate_newlines rest
                | [] => []
                end
      else c :: translate_newlines rest
  end.

(** What [script_file.read()] returns for a file opened with mode ["rt"]. *)
Definition read_text (enc : Encoding) (content : list Byte.byte)
  : option text :=
  translate_newlines <$> decode enc content.

(** *** Exceptions and results *)

(** [SystemExit] carries the exit status; every other exception is known by
    the name of its class. *)
Inductive exn :=
| SystemExit (code : Z)
| PyExc (name : string).

(** How a call into a collaborator ends: it returns, or it raises an
    ordinary exception. *)
Inductive outcome (A : Type) :=
| Returns (a : A)
| Raises (name : string).
Arguments Returns {A} a.
Arguments Raises {A} name.

(** A pending completion handle: awaiting it yields its exception, if it
    has one. *)
Record Future := {
  fut_id : nat;
  fut_exception : option string;
}.

(** A collaborator coroutine: the handles its logging calls append to the
    shared list while it runs, and how it ends. *)
Definition coroutine (A : Type) : Type := list Future * outcome A.

(** *** The collaborators *)

Inductive pyvalue :=
| PInt (z : Z)
| PStr (s : text).

(** An executor object: its [run] attribute, when it has one. *)
Record Executor := {
  run : option (Z → text → coroutine unit);
}.

(** A class: calling it with positional arguments gives an instance or
    raises. *)
Record PyClass := {
  instantiate : list pyvalue → outcome Executor;
}.

(** How [parser.parse_args()] ends for the parser with the single
    positional [module]: a namespace, a usage error (usage and message on
    standard error, [SystemExit(2)]), or the help text ([SystemExit(0)]). *)
Inductive ParseOutcome :=
| Namespace (module : string)
| UsageError (message : string)
| HelpRequested.

(** Everything an invocation finds around it. *)
Record World := {
  sys_argv : list string;                    (* [sys.argv[1:]] *)
  argparse_options : list string → ParseOutcome;
  package : string;                          (* [__package__] *)
  import_module : string → string → outcome (gmap string PyClass);
  PROCESS_SCRIPT : string;                   (* [ExecutorFiles.PROCESS_SCRIPT] *)
  files : gmap string (list Byte.byte);
  preferred_encoding : Encoding;
  DATA : gmap string Z;
  manager_init : coroutine unit;             (* [manager_commands.init()] *)
  manager_deinit : coroutine unit;           (* [manager_commands.deinit()] *)
  all_tasks : list Future;                   (* [asyncio.Task.all_tasks()] *)
}.

(** *** Observable steps *)

Inductive event :=
| EvConfigureLogging
| EvManagerInit
| EvParseArgs
| EvStderr (message : string)
| EvStdout
| EvImportModule (name anchor : string)
| EvGetAttr (name : string)
| EvCall (args : list pyvalue)
| EvOpen (path mode : string)
| EvRead
| EvRun (pid : Z) (script : text)
| EvClose
| EvGatherLogging (futures : list Future)
| EvManagerDeinit
| EvGatherPending (futures : list Future)
| EvLoopClose.

(** The state threaded through the block: the calls made so far and the
    shared [logging_future_list]. *)
Record St := {
  trace : list event;
  logging_future_list : list Future;
}.

(** The code of the block: it works on this state and raises [exn]. *)
Definition M (A : Type) : Type := Effect.M St exn A.

Definition emit (e : event) : M unit :=
  λ st, ({| trace := trace st ++ [e];
            logging_future_list := logging_future_list st |}, Ok ()).

Definition get_logging_future_list : M (list Future) :=
  λ st, (st, Ok (logging_future_list st)).

(** [await c] for a collaborator coroutine [c]. *)
Definition await {A} (c : coroutine A) : M A :=
  λ st,
    let st' := {| trace := trace st;
                  logging_future_list := logging_future_list st ++ c.1 |} in
    match c.2 with
    | Returns a => (st', Ok a)
    | Raises name => (st', Raise (PyExc name))
    end.

(** A plain call into a collaborator. *)
Definition call {A} (o : outcome A) : M A :=
  match o with
  | Returns a => ret a
  | Raises name => raise (PyExc name)
  end.

(** [asyncio.gather] over the handles, awaited: the exception of a failed
    handle is raised (the first one in the list stands for the first one to
    fail). *)
Definition gather (futures : list Future) : M unit :=
  match list_find (λ f, is_Some (fut_exception f)) futures with
  | Some (_, {| fut_exception := Some name |}) => raise (PyExc name)
  | _ => ret ()
  end.

(** *** The program *)

(** [configure_logging(logging_future_list)]: the module-level list is
    handed to the logger. *)
Definition configure_logging : M unit := emit EvConfigureLogging.

(** [with open(path, mode) as f: body]: the file is closed when the body
    is left, normally or by an exception, which is then raised again. *)
Definition with_open {A} (w : World) (path mode : string)
    (body : list Byte.byte → M A) : M A :=
  emit (EvOpen path mode) ;;;
  match files w !! path with
  | None => raise (PyExc "FileNotFoundError")
  | Some content =>
      λ st, let '(st', r) := body content st in
            ((emit EvClose st').1, r)
  end.

(** [script_file.read()]. *)
Definition read (w : World) (script_file : list Byte.byte) : M text :=
  emit EvRead ;;;
  match read_text (preferred_encoding w) script_file with
  | Some t => ret t
  | None => raise (PyExc "UnicodeDecodeError")
  end.

(** Only a string that starts with [-] can be an option or the [--]
    separator for [argparse]; every other string is a positional. *)
Definition option_like (s : string) : bool :=
  match s with
  | String c _ => Ascii.eqb c "-"
  | _ => false
  end.

(** The outcome of parsing [sys.argv[1:]].  Without option-like strings the
    first string is [module], a missing one is an error and so is any
    further one.  What the library makes of a command line with option-like
    strings ([-h], abbreviations, [--]) is left to [argparse_options]. *)
Definition parse_args (w : World) : ParseOutcome :=
  if existsb option_like (sys_argv w) then argparse_options w (sys_argv w)
  else match sys_argv w with
       | [] => UsageError "the following arguments are required: module"
       | [m] => Namespace m
       | _ :: extras =>
           UsageError ("unrecognized arguments: " ++ String.concat " " extras)
       end.

(** [parser.parse_args()]: a usage error and the help both leave through
    [SystemExit]. *)
Definition parser_parse_args (w : World) : M string :=
  emit EvParseArgs ;;;
  match parse_args w with
  | Namespace m => ret m
  | UsageError message => emit (EvStderr message) ;;; raise (SystemExit 2)
  | HelpRequested => emit EvStdout ;;; raise (SystemExit 0)
  end.

(** [getattr(module, class_name)]. *)
Definition getattr (module : gmap string PyClass) (name : string)
  : M PyClass :=
  emit (EvGetAttr name) ;;;
  match module !! name with
  | Some c => ret c
  | None => raise (PyExc "AttributeError")
  end.

(** The [with] statement that ends [run_executor].  In the call
    [executor.run(DATA["id"], script_file.read())] the attribute is looked
    up first, then the arguments are evaluated from left to right. *)
Definition script_block (w : World) (executor : Executor) : M unit :=
  with_open w (PROCESS_SCRIPT w) "rt" (λ script_file,
    executor_run <- match run executor with
                    | Some r => ret r
                    | None => raise (PyExc "AttributeError")
                    end ;;
    pid <- match DATA w !! "id" with
           | Some i => ret i
           | None => raise (PyExc "KeyError")
           end ;;
    script <- read w script_file ;;
    emit (EvRun pid script) ;;;
    await (executor_run pid script)).

(** [run_executor]. *)
Definition run_executor (w : World) : M unit :=
  args_module <- parser_parse_args w ;;
  let module_name := args_module ++ ".run" in
  let class_name := "FlowExecutor" in
  emit (EvImportModule module_name (package w)) ;;;
  module <- call (import_module w module_name (package w)) ;;
  cls <- getattr module class_name ;;
  emit (EvCall []) ;;;
  executor <- call (instantiate cls []) ;;
  script_block w executor.

(** [_sequential]. *)
Definition _sequential (w : World) : M unit :=
  emit EvManagerInit ;;;
  await (manager_init w) ;;;
  run_executor w.

(** [loop.run_until_complete(coro)]: an exception of the coroutine is
    raised in the caller. *)
Definition run_until_complete {A} (coro : M A) : M A := coro.

(** The body of [if __name__ == "__main__":]. *)
Definition main_block (w : World) : M unit :=
  configure_logging ;;;
  run_until_complete (_sequential w) ;;;
  futures <- get_logging_future_list ;;
  emit (EvGatherLogging futures) ;;;
  run_until_complete (gather futures) ;;;
  emit EvManagerDeinit ;;;
  run_until_complete (await (manager_deinit w)) ;;;
  let pending := all_tasks w in
  emit (EvGatherPending pending) ;;;
  run_until_complete (gather pending) ;;;
  emit EvLoopClose.

Definition initial : St := {| trace := []; logging_future_list := [] |}.

(** The state in which [_sequential] starts. *)
Definition configured : St := (configure_logging initial).1.

(** One invocation of the module as a script. *)
Definition main (w : World) : St * result exn unit := main_block w initial.

(** The exit status of the interpreter: [0] when the script ends, the code
    of a [SystemExit], [1] for any other exception that nobody caught. *)
Definition exit_status (r : result exn unit) : Z :=
  match r with
  | Ok _ => 0
  | Raise (SystemExit code) => code
  | Raise (PyExc _) => 1
  end.

(** *** Reading traces *)

(** The step of the sequence an event belongs to. *)
Inductive Step :=
| SConfigureLogging | SManagerInit | SParseArgs | SReport | SImport
| SGetAttr | SConstruct | SOpen | SRead | SRun | SClose | SGatherLogging
| SManagerDeinit | SGatherPending | SLoopClose.

Global Instance Step_eq_dec : EqDecision Step.
Proof. solve_decision. Defined.

Definition step_of (e : event) : Step :=
  match e with
  | EvConfigureLogging => SConfigureLogging
  | EvManagerInit => SManagerInit
  | EvParseArgs => SParseArgs
  | EvStderr _ => SReport
  | EvStdout => SReport
  | EvImportModule _ _ => SImport
  | EvGetAttr _ => SGetAttr
  | EvCall _ => SConstruct
  | EvOpen _ _ => SOpen
  | EvRead => SRead
  | EvRun _ _ => SRun
  | EvClose => SClose
  | EvGatherLogging _ => SGatherLogging
  | EvManagerDeinit => SManagerDeinit
  | EvGatherPending _ => SGatherPending
  | EvLoopClose => SLoopClose
  end.

Definition steps (st : St) : list Step := step_of <$> trace st.

(** How many times a step was taken. *)
Definition times (s : Step) (l : list Step) : nat :=
  length (filter (λ x, x = s) l).

(** Some occurrence of [a] comes before some occurrence of [b]. *)
Definition precedes (a b : Step) (l : list Step) : Prop :=
  ∃ i j, l !! i = Some a ∧ l !! j = Some b ∧ i < j.

(** Every occurrence of [a] comes before every occurrence of [b]. *)
Definition all_before (a b : Step) (l : list Step) : Prop :=
  ∀ i j, l !! i = Some a → l !! j = Some b → i < j.

(** [a] is taken exactly once, [b] is taken, and [a] comes first. *)
Definition once_before (a b : Step) (l : list Step) : Prop :=
  times a l = 1 ∧ b ∈ l ∧ all_before a b l.

(** The same, decided. *)
Fixpoint all_beforeb (a b : Step) (l : list Step) : bool :=
  match l with
  | [] => true
  | x :: l' =>
      (negb (bool_decide (x = b)) || negb (bool_decide (a ∈ x :: l')))
      && all_beforeb a b l'
  end.

Definition once_beforeb (a b : Step) (l : list Step) : bool :=
  bool_decide (times a l = 1) && bool_decide (b ∈ l) && all_beforeb a b l.

(** The steps of a complete run. *)
Definition full_sequence : list Step :=
  [SConfigureLogging; SManagerInit; SParseArgs; SImport; SGetAttr;
   SConstruct; SOpen; SRead; SRun; SClose; SGatherLogging; SManagerDeinit;
   SGatherPending; SLoopClose].

(** *** The specification's sentences, as it words them *)

(** The command line has no argument at all. *)
Definition missing_argument (w : World) : Prop := sys_argv w = [].

(** [argparse] rejects the command line. *)
Definition rejected_argument (w : World) : Prop :=
  ∃ message, parse_args w = UsageError message.

(** The module name does not resolve: the import fails, or the module has no
    [FlowExecutor]. *)
Definition invalid_module (w : World) : Prop :=
  ∃ m, parse_args w = Namespace m
       ∧ ((∃ name, import_module w (m ++ ".run") (package w) = Raises name)
          ∨ (∃ module, import_module w (m ++ ".run") (package w)
                        = Returns module
                      ∧ module !! "FlowExecutor" = None)).

(** "Given an invalid module name, the sequence must fail before any
    manager-init call occurs." *)
Definition fails_before_manager_init (w : World) : Prop :=
  invalid_module w →
  (∃ e, (main w).2 = Raise e) ∧ SManagerInit ∉ steps (main w).1.

(** "Argument error: missing or invalid module name — reported
    immediately, process exits with a failure code", for a command line
    that [argparse] rejects: its message is written and the exit status is
    not zero. *)
Definition reports_argument_error (w : World) : Prop :=
  missing_argument w ∨ rejected_argument w →
  (∃ message, EvStderr message ∈ trace (main w).1)
  ∧ exit_status (main w).2 ≠ 0%Z.

(** "A process script file at a fixed path, read as UTF-8 text and passed
    verbatim to the executor", with the identifier found under ["id"]. *)
Definition passes_utf8_verbatim (w : World) : Prop :=
  ∀ pid script, EvRun pid script ∈ trace (main w).1 →
    ∃ content, files w !! PROCESS_SCRIPT w = Some content
               ∧ decode UTF_8 content = Some script
               ∧ DATA w !! "id" = Some pid.

(** *** Sample worlds *)

Definition log (n : nat) : Future := {| fut_id := n; fut_exception := None |}.

(** An executor that logs once and returns, and one whose [run] raises. *)
Definition docker_executor : Executor :=
  {| run := Some (λ _ _, ([log 2], Returns ())) |}.

Definition broken_executor : Executor :=
  {| run := Some (λ _ _, ([log 2], Raises "RuntimeError")) |}.

Definition class_of (ex : Executor) : PyClass :=
  {| instantiate := λ args,
       match args with
       | [] => Returns ex
       | _ => Raises "TypeError"
       end |}.

(** The package holds [.docker.run] and [.broken.run]; the module
    [.empty.run] exists and has no [FlowExecutor]. *)
Definition sample_import (name anchor : string)
  : outcome (gmap string PyClass) :=
  if decide (anchor = "executors") then
    if decide (name = ".docker.run")
    then Returns {[ "FlowExecutor" := class_of docker_executor ]}
    else if decide (name = ".broken.run")
    then Returns {[ "FlowExecutor" := class_of broken_executor ]}
    else if decide (name = ".empty.run")
    then Returns ∅
    else Raises "ModuleNotFoundError"
  else Raises "ModuleNotFoundError".

(** The sample worlds are given no option-like string but [-h]. *)
Definition sample_world (argv : list string) (init : coroutine unit)
    (enc : Encoding) (script : list Byte.byte) : World :=
  {| sys_argv := argv;
     argparse_options := λ _, HelpRequested;
     package := "executors";
     import_module := sample_import;
     PROCESS_SCRIPT := "process_script.sh";
     files := {[ "process_script.sh" := script ]};
     preferred_encoding := enc;
     DATA := {[ "id" := 42%Z ]};
     manager_init := init;
     manager_deinit := ([], Returns ());
     all_tasks := [log 1; log 2] |}.

(** The bytes of [echo hi] and a line feed. *)
Definition plain_script : list Byte.byte :=
  [Byte.x65; Byte.x63; Byte.x68; Byte.x6f; Byte.x20; Byte.x68; Byte.x69;
   Byte.x0a].

(** The UTF-8 bytes of [U+00E9] followed by a carriage return and a line
    feed. *)
Definition accented_script : list Byte.byte :=
  [Byte.xc3; Byte.xa9; Byte.x0d; Byte.x0a].

Definition connected : coroutine unit := ([log 1], Returns ()).

Definition docker_world : World :=
  sample_world [".docker"] connected UTF_8 plain_script.

Definition broken_world : World :=
  sample_world [".broken"] connected UTF_8 plain_script.

Definition nosuch_world : World :=
  sample_world [".nosuch"] connected UTF_8 plain_script.

Definition empty_world : World :=
  sample_world [".empty"] connected UTF_8 plain_script.

Definition noargs_world : World :=
  sample_world [] connected UTF_8 plain_script.

Definition unreachable_world : World :=
  sample_world [".docker"] ([], Raises "ConnectionError")
    UTF_8 plain_script.

(** No argument, and a manager that cannot be reached. *)
Definition noargs_unreachable_world : World :=
  sample_world [] ([], Raises "ConnectionError") UTF_8 plain_script.

Definition latin1_world : World :=
  sample_world [".docker"] connected Latin_1 accented_script.

Definition utf8_crlf_world : World :=
  sample_world [".docker"] connected UTF_8 accented_script.

Definition ascii_world : World :=
  sample_world [".docker"] connected ASCII accented_script.

(** More sample worlds: a logging handle that fails, settings without the
    identifier, a script file that is not there. *)
Definition failed_log : Future :=
  {| fut_id := 9; fut_exception := Some "ConnectionResetError" |}.

Definition lost_log_world : World :=
  sample_world [".docker"] ([log 1; failed_log], Returns ())
    UTF_8 plain_script.

Definition without_script (w : World) : World :=
  {| sys_argv := sys_argv w;
     argparse_options := argparse_options w;
     package := package w;
     import_module := import_module w;
     PROCESS_SCRIPT := PROCESS_SCRIPT w;
     files := delete (PROCESS_SCRIPT w) (files w);
     preferred_encoding := preferred_encoding w;
     DATA := DATA w;
     manager_init := manager_init w;
     manager_deinit := manager_deinit w;
     all_tasks := all_tasks w |}.

Definition without_id (w : World) : World :=
  {| sys_argv := sys_argv w;
     argparse_options := argparse_options w;
     package := package w;
     import_module := import_module w;
     PROCESS_SCRIPT := PROCESS_SCRIPT w;
     files := files w;
     preferred_encoding := preferred_encoding w;
     DATA := delete "id" (DATA w);
     manager_init := manager_init w;
     manager_deinit := manager_deinit w;
     all_tasks := all_tasks w |}.

End Bootstrap.


(** * Properties *)

Local Open Scope list_scope.

(** ** Query-parameter validation *)

Module FiltersFacts.
Import Filters.

(** The allowed names as the specification words them are the set the code
    builds. *)
Lemma spec_allowed_eq fs : spec_allowed fs = allowed_params fs.
Proof.
  unfold spec_allowed, allowed_params, get_always_allowed_arguments,
    mixin_always_allowed_arguments.
  apply set_eq; intros x.
  destruct (cls fs); simpl; set_unfold; tauto.
Qed.

Lemma unallowed_empty_iff fs :
  unallowed fs = ∅ ↔ dom (query_params fs) ⊆ allowed_params fs.
Proof.
  unfold unallowed. split.
  - intros H x Hx. destruct (decide (x ∈ allowed_params fs)) as [|Hn]; [done|].
    exfalso.
    assert (x ∈ dom (query_params fs) ∖ allowed_params fs) as Hin
      by (apply elem_of_difference; done).
    rewrite H in Hin. by apply not_elem_of_empty in Hin.
  - intros H. apply set_eq. intros x. rewrite elem_of_difference.
    split; [intros [? ?]; exfalso; auto |].
    intros Hx; by apply not_elem_of_empty in Hx.
Qed.

Lemma app_singleton_neq {A} (l : list A) (x : A) : l ++ [x] ≠ l.
Proof.
  intros H. apply (f_equal length) in H.
  rewrite length_app in H. simpl in H. lia.
Qed.

(** C10.  [validate_query_params] adds an error to the form if and only if
    the names of the request's query parameters are not all among the filter
    names of the filter set and the always-allowed arguments ([fields],
    [format], [limit], [offset], [ordering], and for [RelationFilter] also
    [entity], [label], [position]).  When it adds one it adds exactly one
    [ParseError] at the end, and it changes nothing else. *)
Theorem validate_query_params_error_iff (fs : FilterSet) :
  (form_errors (validate_query_params fs) ≠ form_errors fs
     ↔ dom (query_params fs) ⊈ spec_allowed fs)
  ∧ (form_errors (validate_query_params fs) = form_errors fs
     ∨ ∃ msg, form_errors (validate_query_params fs)
              = form_errors fs ++ [ParseError msg])
  ∧ cls (validate_query_params fs) = cls fs
  ∧ get_filters (validate_query_params fs) = get_filters fs
  ∧ query_params (validate_query_params fs) = query_params fs.
Proof.
  rewrite spec_allowed_eq. unfold validate_query_params.
  destruct (decide (unallowed fs = ∅)) as [He|Hne].
  - apply unallowed_empty_iff in He.
    split; [split; intros H; by destruct H | by auto].
  - split; [|simpl; repeat split; right; eexists; reflexivity]. split.
    + intros _ Hsub. apply Hne. by apply unallowed_empty_iff.
    + intros _. apply app_singleton_neq.
Qed.

Example relation_request_accepted :
  is_valid true relation_request = (relation_request, true).
Proof. vm_compute. reflexivity. Qed.

Example data_request_rejected :
  (is_valid true data_request).2 = false
  ∧ unallowed data_request = {[ "label" ]}
  ∧ length (form_errors (is_valid true data_request).1) = 1.
Proof. vm_compute. repeat split; reflexivity. Qed.

(** The data endpoint does filter by [entity], and by the lookups of its
    [Meta.fields]. *)
Example data_request_filters :
  is_Some (get_filters data_request !! "entity")
  ∧ is_Some (get_filters data_request !! "entity__in")
  ∧ is_Some (get_filters data_request !! "created__date")
  ∧ is_Some (get_filters data_request !! "type__exact")
  ∧ get_filters data_request !! "label" = None
  ∧ get_filters data_request !! "entity__exact" = None.
Proof. vm_compute. repeat split; by eexists. Qed.

(** *** Further properties of the validation *)

Lemma validate_query_params_accepts fs :
  dom (query_params fs) ⊆ allowed_params fs → validate_query_params fs = fs.
Proof.
  intros H. unfold validate_query_params.
  destruct (decide (unallowed fs = ∅)) as [|Hne]; [done|].
  exfalso. apply Hne. by apply unallowed_empty_iff.
Qed.

Lemma validate_query_params_rejects fs :
  dom (query_params fs) ⊈ allowed_params fs →
  validate_query_params fs
  = add_error (ParseError (unsupported_msg (unallowed fs) (allowed_params fs)))
      fs.
Proof.
  intros H. unfold validate_query_params.
  destruct (decide (unallowed fs = ∅)) as [He|]; [|done].
  exfalso. apply H. by apply unallowed_empty_iff.
Qed.

(** X1.  A request whose parameters are all among [fields], [format],
    [limit], [offset] and [ordering] is never rejected, whatever the filter
    set and its filters: validation leaves the filter set as it is and
    [is_valid] answers what the form answers. *)
Theorem paging_parameters_always_accepted (fs : FilterSet) (form_ok : bool) :
  dom (query_params fs) ⊆ list_to_set mixin_always_allowed_arguments →
  validate_query_params fs = fs
  ∧ is_valid form_ok fs
    = (fs, form_ok && bool_decide (form_errors fs = [])).
Proof.
  intros H.
  assert (validate_query_params fs = fs) as Hv.
  { apply validate_query_params_accepts. intros x Hx. apply H in Hx.
    unfold allowed_params, get_always_allowed_arguments.
    apply elem_of_union_r. destruct (cls fs); try done.
    rewrite list_to_set_app_L. by apply elem_of_union_l. }
  split; [done|]. unfold is_valid, super_is_valid. by rewrite Hv.
Qed.

Lemma paging_parameters_always_accepted_witness :
  is_valid true paging_request = (paging_request, true).
Proof.
  refine (proj2 (paging_parameters_always_accepted paging_request true _)).
  apply (bool_decide_unpack _). vm_compute. exact I.
Defined.

(** X2.  Acceptance is monotone: a request accepted by a filter set is
    still accepted when filters are added to it, and when the filter set is
    a [RelationFilter] instead. *)
Theorem acceptance_monotone (fs fs' : FilterSet) :
  query_params fs' = query_params fs →
  dom (get_filters fs) ⊆ dom (get_filters fs') →
  cls fs' = cls fs ∨ cls fs' = RelationFilter →
  validate_query_params fs = fs →
  validate_query_params fs' = fs'.
Proof.
  intros Hq Hf Hc Hacc.
  apply validate_query_params_accepts.
  assert (dom (query_params fs) ⊆ allowed_params fs) as Hsub.
  { destruct (decide (dom (query_params fs) ⊆ allowed_params fs)) as [|Hn];
      [done|].
    apply validate_query_params_rejects in Hn. rewrite Hacc in Hn.
    apply (f_equal form_errors) in Hn. simpl in Hn.
    by apply eq_sym, app_singleton_neq in Hn. }
  rewrite Hq. intros x Hx. apply Hsub in Hx.
  unfold allowed_params in *. apply elem_of_union in Hx as [Hx|Hx].
  - apply elem_of_union_l. by apply Hf.
  - apply elem_of_union_r.
    destruct Hc as [->| ->]; [done|].
    unfold get_always_allowed_arguments in *.
    rewrite list_to_set_app_L.
    destruct (cls fs); try (by apply elem_of_union_l).
    by rewrite list_to_set_app_L in Hx.
Qed.

Lemma acceptance_monotone_witness :
  validate_query_params
    {| cls := RelationFilter;
       get_filters := {[ "category" := (); "type" := () ]};
       query_params := query_params paging_request;
       form_errors := [] |}
  = {| cls := RelationFilter;
       get_filters := {[ "category" := (); "type" := () ]};
       query_params := query_params paging_request;
       form_errors := [] |}.
Proof.
  apply (acceptance_monotone paging_request).
  - reflexivity.
  - apply (bool_decide_unpack _). vm_compute. exact I.
  - right. reflexivity.
  - vm_compute. reflexivity.
Defined.

(** X3.  [is_valid] answers [True] exactly when the form is valid, carried
    no error before, and every query parameter is allowed: a parameter that
    is not allowed makes the filter set invalid whatever the form says. *)
Theorem is_valid_true_iff (fs : FilterSet) (form_ok : bool) :
  (is_valid form_ok fs).2 = true
  ↔ form_ok = true ∧ form_errors fs = []
    ∧ dom (query_params fs) ⊆ allowed_params fs.
Proof.
  unfold is_valid, super_is_valid. simpl.
  rewrite andb_true_iff, bool_decide_eq_true.
  destruct (decide (dom (query_params fs) ⊆ allowed_params fs)) as [Hs|Hn].
  - rewrite validate_query_params_accepts by done. tauto.
  - rewrite validate_query_params_rejects by done. simpl.
    split; [|tauto]. intros [_ H]. by apply app_nil in H as [_ ?].
Qed.

(** X4.  Validation is not idempotent: on a request with a parameter that
    is not allowed every further call appends the same error again. *)
Theorem validation_accumulates (fs : FilterSet) (n : nat) :
  dom (query_params fs) ⊈ allowed_params fs →
  form_errors (Nat.iter n validate_query_params fs)
  = form_errors fs
    ++ replicate n
         (ParseError (unsupported_msg (unallowed fs) (allowed_params fs))).
Proof.
  intros Hn.
  assert (∀ k, let fs' := Nat.iter k validate_query_params fs in
               cls fs' = cls fs ∧ get_filters fs' = get_filters fs
               ∧ query_params fs' = query_params fs
               ∧ form_errors fs'
                 = form_errors fs
                   ++ replicate k (ParseError (unsupported_msg (unallowed fs)
                                                 (allowed_params fs))))
    as H; [|apply H].
  induction k as [|k (Hc & Hf & Hq & He)]; simpl.
  - by rewrite app_nil_r.
  - set (fs' := Nat.iter k validate_query_params fs) in *.
    assert (allowed_params fs' = allowed_params fs) as Ha
      by (unfold allowed_params; by rewrite Hc, Hf).
    assert (unallowed fs' = unallowed fs) as Hu
      by (unfold unallowed; by rewrite Ha, Hq).
    rewrite validate_query_params_rejects by (by rewrite Ha, Hq).
    simpl. rewrite Ha, Hu, He. repeat (split; [done|]).
    rewrite <- app_assoc. f_equal.
    change (?x :: replicate k ?x) with (replicate (S k) x).
    by rewrite replicate_S_end.
Qed.

Lemma validation_accumulates_witness :
  length (form_errors (validate_query_params
                         (validate_query_params data_request))) = 2.
Proof.
  change (validate_query_params (validate_query_params data_request))
    with (Nat.iter 2 validate_query_params data_request).
  rewrite (validation_accumulates data_request 2).
  - reflexivity.
  - apply (bool_decide_unpack _). vm_compute. exact I.
Defined.

(** *** The metaclass *)

Section MetaclassFacts.
Context {V : Type} (str : V → string).
Context (get_extensions : string → list (list (string * V))).

(** The two nested loops visit the listed names of all extensions in one
    sequence. *)
Lemma foldl_inject_concat (exts : list (list (string * V))) : ∀ acc,
  foldl (λ acc ext, foldl inject acc ext) acc exts
  = foldl inject acc (concat exts).
Proof.
  induction exts as [|ext exts IH]; intros acc; simpl; [done|].
  by rewrite IH, foldl_app.
Qed.

(** What the loop leaves: the loop variable holds the last listed name, and
    an entry of the namespace holds the last value listed under its name,
    unless the name starts with two underscores. *)
Lemma foldl_inject_spec (items : list (string * V)) : ∀ acc,
  (foldl inject acc items).1 = default acc.1 (last items.*1)
  ∧ ∀ key,
      (foldl inject acc items).2 !! key
      = if String.prefix "__" key then acc.2 !! key
        else match last (filter (λ it, it.1 = key) items) with
             | Some it => Some it.2
             | None => acc.2 !! key
             end.
Proof.
  induction items as [|item items IH] using rev_ind; intros acc.
  - split; [done|]. intros key. simpl. by destruct (String.prefix "__" key).
  - rewrite foldl_app. simpl. destruct (IH acc) as [_ IHns].
    split.
    + rewrite fmap_app. simpl. rewrite last_snoc. simpl.
      unfold inject. by destruct (String.prefix "__" item.1).
    + intros key. rewrite filter_app.
      unfold inject at 1.
      destruct (String.prefix "__" item.1) eqn:Hdunder; simpl.
      * rewrite IHns.
        destruct (String.prefix "__" key) eqn:Hkey; [done|].
        rewrite filter_cons, filter_nil.
        destruct (decide (item.1 = key)) as [Heq|Hne].
        { rewrite Heq in Hdunder. congruence. }
        by rewrite app_nil_r.
      * rewrite filter_cons, filter_nil.
        destruct (decide (item.1 = key)) as [Heq|Hne].
        { subst key. rewrite lookup_insert_eq, Hdunder, last_snoc. done. }
        rewrite lookup_insert_ne by done. rewrite IHns.
        by rewrite app_nil_r.
Qed.

(** X5.  The namespace the class is created from: an entry whose name starts
    with two underscores is the class's own; any other entry holds the value
    of the last extension that lists its name, also when the class declares
    that name itself; entries no extension lists are the class's own. *)
Theorem metaclass_new_namespace (name : string) (bases : list string)
    (namespace : gmap string V) (module : V) :
  namespace !! "__module__" = Some module →
  ∃ name' namespace',
    metaclass_new str get_extensions name bases namespace
    = Effect.Ok (name', bases, namespace')
    ∧ ∀ key,
        namespace' !! key
        = if String.prefix "__" key then namespace !! key
          else match last (filter (λ it, it.1 = key)
                             (concat (get_extensions
                                        (str module +:+ "." +:+ name))))
               with
               | Some it => Some it.2
               | None => namespace !! key
               end.
Proof.
  intros Hm. unfold metaclass_new. rewrite Hm.
  eexists _, _. split; [reflexivity|].
  intros key. rewrite foldl_inject_concat.
  apply (foldl_inject_spec _ (name, namespace)).
Qed.

(** X6.  The name the class is created under is not its own as soon as an
    extension lists a name: the inner loop binds the parameter [name], so
    the class is created under the last name the last extension lists.
    Without any listed name it keeps its own. *)
Theorem metaclass_new_name (name : string) (bases : list string)
    (namespace : gmap string V) (module : V) :
  namespace !! "__module__" = Some module →
  ∃ namespace',
    metaclass_new str get_extensions name bases namespace
    = Effect.Ok
        (default name
           (last (concat (get_extensions (str module +:+ "." +:+ name))).*1),
         bases, namespace').
Proof.
  intros Hm. unfold metaclass_new. rewrite Hm.
  eexists. rewrite foldl_inject_concat.
  destruct (foldl_inject_spec
              (concat (get_extensions (str module +:+ "." +:+ name)))
              (name, namespace)) as [Hname _].
  simpl in Hname. by rewrite Hname.
Qed.

End MetaclassFacts.

Lemma metaclass_new_namespace_witness :
  ∃ name' namespace',
    metaclass_new id sample_get_extensions "DataFilter"
      ["TextFilterMixin"; "UserFilterMixin"; "BaseResolweFilter"]
      sample_namespace
    = Effect.Ok (name', ["TextFilterMixin"; "UserFilterMixin";
                         "BaseResolweFilter"], namespace')
    ∧ namespace' !! "tags" = Some "<MyTagsFilter>"
    ∧ namespace' !! "__module__" = Some "resolwe.flow.filters"
    ∧ namespace' !! "text" = Some "<CharFilter>".
Proof.
  destruct (metaclass_new_namespace id sample_get_extensions "DataFilter"
              ["TextFilterMixin"; "UserFilterMixin"; "BaseResolweFilter"]
              sample_namespace "resolwe.flow.filters" eq_refl)
    as (name' & namespace' & Hnew & Hns).
  exists name', namespace'. split; [exact Hnew|].
  rewrite !Hns. repeat split; reflexivity.
Defined.

Lemma metaclass_new_name_witness :
  ∃ namespace',
    metaclass_new id sample_get_extensions "DataFilter" [] sample_namespace
    = Effect.Ok ("tags", [], namespace').
Proof.
  exact (metaclass_new_name id sample_get_extensions "DataFilter" []
           sample_namespace "resolwe.flow.filters" eq_refl).
Defined.

End FiltersFacts.

(** ** The backfill of [DataLocation.purged] *)

Module Migration0033Facts.
Import Migration0033.

(** The loop writes [DataLocation] rows only. *)
Lemma mark_one_data db row : data (mark_one db row) = data db.
Proof. unfold mark_one. by destruct (has_purged_data db row.1). Qed.

Lemma has_purged_data_ext db db' pk :
  data db = data db' → has_purged_data db pk = has_purged_data db' pk.
Proof. unfold has_purged_data, related_data. by intros ->. Qed.

Lemma foldl_mark_one_data l db : data (foldl mark_one db l) = data db.
Proof.
  revert db. induction l as [|row l IH]; intros db; simpl; [done|].
  by rewrite IH, mark_one_data.
Qed.

(** [exists()] on the filtered reverse relation, in terms of rows. *)
Lemma has_purged_data_true db pk :
  has_purged_data db pk = true
  ↔ ∃ k d, data db !! k = Some d ∧ location d = Some pk ∧ purged d = true.
Proof.
  unfold has_purged_data, related_data. rewrite bool_decide_eq_true. split.
  - intros Hne. apply map_choose in Hne as (k & d & Hkd).
    apply map_lookup_filter_Some in Hkd as [Hkd Hp].
    apply map_lookup_filter_Some in Hkd as [Hkd Hl]. eauto.
  - intros (k & d & Hkd & Hl & Hp) Hempty.
    assert (filter (λ kd : Z * Data, purged kd.2 = true)
              (filter (λ kd : Z * Data, location kd.2 = Some pk) (data db))
            !! k = Some d) as Hin.
    { apply map_lookup_filter_Some. split; [|done].
      apply map_lookup_filter_Some. done. }
    rewrite Hempty in Hin. by rewrite lookup_empty in Hin.
Qed.

(** The state of one row after the loop has run over the fetched objects
    [l]: a fetched object with purged data is written back with the flag
    set; every other row is as it was. *)
Lemma foldl_mark_one_lookup l : ∀ db k,
  NoDup l.*1 →
  locations (foldl mark_one db l) !! k =
    match (list_to_map l : gmap Z DataLocation) !! k with
    | Some row =>
        if has_purged_data db k
        then Some {| subpath := subpath row; dl_purged := true |}
        else locations db !! k
    | None => locations db !! k
    end.
Proof.
  induction l as [|[k0 r0] l IH]; intros db k Hnd; simpl.
  - by rewrite lookup_empty.
  - apply NoDup_cons in Hnd as [Hk0 Hnd].
    rewrite IH by done.
    rewrite (has_purged_data_ext (mark_one db (k0, r0)) db)
      by apply mark_one_data.
    destruct (decide (k = k0)) as [->|Hne].
    + rewrite lookup_insert_eq.
      rewrite (proj1 (not_elem_of_list_to_map l k0) Hk0).
      unfold mark_one; simpl.
      destruct (has_purged_data db k0); simpl; [|done].
      by rewrite lookup_insert_eq.
    + rewrite lookup_insert_ne by done.
      assert (locations (mark_one db (k0, r0)) !! k = locations db !! k) as ->.
      { unfold mark_one; simpl. destruct (has_purged_data db k0); simpl; [|done].
        by rewrite lookup_insert_ne. }
      done.
Qed.

Lemma mark_purged_locations_lookup db k :
  locations (mark_purged_locations db) !! k =
    match locations db !! k with
    | Some row =>
        Some (if has_purged_data db k
              then {| subpath := subpath row; dl_purged := true |}
              else row)
    | None => None
    end.
Proof.
  unfold mark_purged_locations.
  rewrite foldl_mark_one_lookup by apply NoDup_fst_map_to_list.
  rewrite list_to_map_to_list.
  destruct (locations db !! k) as [row|] eqn:E; [|done].
  by destruct (has_purged_data db k).
Qed.

Lemma mark_purged_locations_dom db :
  dom (locations (mark_purged_locations db)) = dom (locations db).
Proof.
  apply set_eq. intros k. rewrite !elem_of_dom.
  rewrite mark_purged_locations_lookup.
  destruct (locations db !! k); [|done].
  split; intros _; eauto.
Qed.

Lemma mark_purged_locations_data db :
  data (mark_purged_locations db) = data db.
Proof. unfold mark_purged_locations. apply foldl_mark_one_data. Qed.

(** C8.  After [AddField] and [mark_purged_locations], a [DataLocation] that
    has at least one associated [Data] row with [purged] set has its own
    [purged] set, and a [DataLocation] without one keeps the default
    [False]; its other columns, the set of locations and the [Data] table
    are as before. *)
Theorem mark_purged_locations_spec (db : Db0) (pk : Z) (loc0 : DataLocation0) :
  locations0 db !! pk = Some loc0 →
  ∃ loc,
    locations (mark_purged_locations (add_field_purged db)) !! pk = Some loc
    ∧ locations1 (operations db) !! pk = Some loc
    ∧ subpath loc = subpath0 loc0
    ∧ ((∃ k d, data0 db !! k = Some d ∧ location d = Some pk
               ∧ purged d = true) → dl_purged loc = true)
    ∧ (¬ (∃ k d, data0 db !! k = Some d ∧ location d = Some pk
                 ∧ purged d = true) → dl_purged loc = false)
    ∧ dom (locations (mark_purged_locations (add_field_purged db)))
      = dom (locations0 db)
    ∧ data (mark_purged_locations (add_field_purged db)) = data0 db.
Proof.
  intros Hloc.
  pose proof (has_purged_data_true (add_field_purged db) pk) as Hiff.
  simpl in Hiff.
  assert (locations (add_field_purged db) !! pk
          = Some {| subpath := subpath0 loc0; dl_purged := false |}) as Hadd.
  { unfold add_field_purged; simpl. by rewrite lookup_fmap, Hloc. }
  pose proof (mark_purged_locations_lookup (add_field_purged db) pk) as Hlk.
  rewrite Hadd in Hlk.
  assert (dom (locations (mark_purged_locations (add_field_purged db)))
          = dom (locations0 db)) as Hdom.
  { rewrite mark_purged_locations_dom. unfold add_field_purged; simpl.
    apply dom_fmap_L. }
  pose proof (mark_purged_locations_data (add_field_purged db)) as Hdata.
  eexists. split; [exact Hlk|]. split; [exact Hlk|].
  destruct (has_purged_data (add_field_purged db) pk) eqn:Hp; simpl.
  - split; [done|]. split; [done|]. split; [|done].
    intros Hno. exfalso. apply Hno. by apply Hiff.
  - split; [done|]. split; [|done].
    intros Hex. apply Hiff in Hex. done.
Qed.

Lemma mark_purged_locations_spec_witness :
  ∃ loc,
    locations (mark_purged_locations (add_field_purged sample_db)) !! 1%Z
    = Some loc
    ∧ dl_purged loc = true.
Proof.
  destruct (mark_purged_locations_spec sample_db 1%Z {| subpath0 := "a" |}
              eq_refl) as (loc & Hloc & _ & _ & Hpurged & _).
  exists loc. split; [exact Hloc|].
  apply Hpurged.
  exists 10%Z, {| location := Some 1%Z; purged := true |}.
  repeat split; reflexivity.
Defined.

Example sample_db_migrated :
  locations1 (operations sample_db) !! 1%Z
  = Some {| subpath := "a"; dl_purged := true |}
  ∧ locations1 (operations sample_db) !! 2%Z
    = Some {| subpath := "b"; dl_purged := false |}
  ∧ locations1 (operations sample_db) !! 3%Z
    = Some {| subpath := "c"; dl_purged := false |}
  ∧ locations1 (operations sample_db) !! 4%Z = None.
Proof. vm_compute. repeat split; reflexivity. Qed.

(** *** Further properties of the backfill *)

Lemma Db_eq (db db' : Db) :
  locations db = locations db' → data db = data db' → db = db'.
Proof. destruct db, db'; simpl; by intros -> ->. Qed.

(** X7.  Running the backfill a second time changes nothing. *)
Theorem mark_purged_locations_idempotent (db : Db) :
  mark_purged_locations (mark_purged_locations db) = mark_purged_locations db.
Proof.
  apply Db_eq; [|by rewrite !mark_purged_locations_data].
  apply map_eq; intros k.
  rewrite (mark_purged_locations_lookup (mark_purged_locations db)).
  rewrite (has_purged_data_ext (mark_purged_locations db) db)
    by apply mark_purged_locations_data.
  rewrite mark_purged_locations_lookup.
  destruct (locations db !! k) as [row|]; [|done].
  by destruct (has_purged_data db k).
Qed.

(** X8.  The outcome does not depend on the order in which the database
    returns the locations: the loop run over any permutation of the fetched
    rows ends in the same database. *)
Theorem mark_purged_locations_any_order (db : Db)
    (fetched : list (Z * DataLocation)) :
  fetched ≡ₚ map_to_list (locations db) →
  foldl mark_one db fetched = mark_purged_locations db.
Proof.
  intros Hperm.
  assert (NoDup fetched.*1) as Hnd.
  { rewrite Hperm. apply NoDup_fst_map_to_list. }
  apply Db_eq.
  - apply map_eq; intros k.
    rewrite foldl_mark_one_lookup by done.
    rewrite mark_purged_locations_lookup.
    rewrite (list_to_map_proper fetched (map_to_list (locations db)))
      by done.
    rewrite list_to_map_to_list.
    destruct (locations db !! k) as [row|] eqn:E; [|done].
    by destruct (has_purged_data db k).
  - by rewrite foldl_mark_one_data, mark_purged_locations_data.
Qed.

Lemma mark_purged_locations_any_order_witness :
  foldl mark_one (add_field_purged sample_db)
    [(2%Z, {| subpath := "b"; dl_purged := false |});
     (3%Z, {| subpath := "c"; dl_purged := false |});
     (1%Z, {| subpath := "a"; dl_purged := false |})]
  = mark_purged_locations (add_field_purged sample_db).
Proof.
  apply mark_purged_locations_any_order.
  vm_compute. apply perm_swap.
Defined.

(** X9.  On any database, also one in which some locations are purged
    already, the backfill only ever sets the flag: a location ends purged
    exactly when it was purged before or has purged data, and its other
    columns are kept. *)
Theorem mark_purged_locations_only_sets (db : Db) (pk : Z)
    (row : DataLocation) :
  locations db !! pk = Some row →
  ∃ row',
    locations (mark_purged_locations db) !! pk = Some row'
    ∧ subpath row' = subpath row
    ∧ dl_purged row' = dl_purged row || has_purged_data db pk.
Proof.
  intros Hrow. rewrite mark_purged_locations_lookup, Hrow.
  eexists. split; [reflexivity|].
  destruct (has_purged_data db pk); simpl.
  - by rewrite orb_true_r.
  - by rewrite orb_false_r.
Qed.

Lemma mark_purged_locations_only_sets_witness :
  ∃ row',
    locations (mark_purged_locations purged_db) !! 7%Z = Some row'
    ∧ dl_purged row' = true.
Proof.
  destruct (mark_purged_locations_only_sets purged_db 7%Z
              {| subpath := "x"; dl_purged := true |})
    as (row' & Hrow' & _ & Hp).
  { vm_compute. reflexivity. }
  exists row'. split; [exact Hrow'|]. rewrite Hp. reflexivity.
Defined.

(** X10.  The backfill leaves a database as it is exactly when every
    location that has purged data is purged already. *)
Theorem mark_purged_locations_fixed_point (db : Db) :
  mark_purged_locations db = db
  ↔ ∀ pk row, locations db !! pk = Some row →
              has_purged_data db pk = true → dl_purged row = true.
Proof.
  split.
  - intros Heq pk row Hrow Hp.
    apply (f_equal (λ d, locations d !! pk)) in Heq.
    rewrite mark_purged_locations_lookup, Hrow, Hp in Heq.
    injection Heq as <-. done.
  - intros H. apply Db_eq; [|apply mark_purged_locations_data].
    apply map_eq; intros pk. rewrite mark_purged_locations_lookup.
    destruct (locations db !! pk) as [row|] eqn:Hrow; [|done].
    destruct (has_purged_data db pk) eqn:Hp; [|done].
    specialize (H pk row Hrow Hp). destruct row; simpl in *. by subst.
Qed.

(** Rows without a location play no part in [exists()]. *)
Lemma has_purged_data_unlocated (db : Db) (k : Z) (d : Data) (flag : bool)
    (pk : Z) :
  data db !! k = Some d → location d = None →
  has_purged_data
    {| locations := locations db;
       data := <[k := {| location := None; purged := flag |}]> (data db) |} pk
  = has_purged_data db pk.
Proof.
  intros Hd Hloc.
  destruct (has_purged_data db pk) eqn:Hp.
  - apply has_purged_data_true. apply has_purged_data_true in Hp
      as (k' & d' & Hk' & Hl' & Hp').
    exists k', d'. simpl. rewrite lookup_insert_ne; [done|].
    intros ->. congruence.
  - match goal with |- ?x = false => destruct x eqn:Hp2 end; [|done].
    apply has_purged_data_true in Hp2 as (k' & d' & Hk' & Hl' & Hp').
    simpl in Hk'. destruct (decide (k = k')) as [->|Hne].
    + rewrite lookup_insert_eq in Hk'. injection Hk' as <-. done.
    + rewrite lookup_insert_ne in Hk' by done.
      assert (has_purged_data db pk = true) as Ht
        by (apply has_purged_data_true; eauto).
      congruence.
Qed.

(** X11.  The flag of a [Data] row that has no location is lost: the
    outcome of the whole migration is the same whether such a row was
    purged or not. *)
Theorem operations_forgets_unlocated (db : Db0) (k : Z) (d : Data)
    (flag : bool) :
  data0 db !! k = Some d → location d = None →
  operations
    {| locations0 := locations0 db;
       data0 := <[k := {| location := None; purged := flag |}]> (data0 db) |}
  = operations db.
Proof.
  intros Hd Hloc. unfold operations, remove_field_purged.
  set (db' := {| locations0 := locations0 db;
                 data0 := <[k := {| location := None; purged := flag |}]>
                            (data0 db) |}).
  f_equal.
  - apply map_eq; intros pk. rewrite !mark_purged_locations_lookup.
    change (locations (add_field_purged db'))
      with (locations (add_field_purged db)).
    change (add_field_purged db')
      with {| locations := locations (add_field_purged db);
              data := <[k := {| location := None; purged := flag |}]>
                        (data (add_field_purged db)) |}.
    by rewrite (has_purged_data_unlocated (add_field_purged db) k d).
  - rewrite !mark_purged_locations_data. simpl.
    rewrite fmap_insert. simpl. apply insert_id.
    rewrite lookup_fmap, Hd. simpl. by rewrite Hloc.
Qed.

Lemma operations_forgets_unlocated_witness :
  operations
    {| locations0 := locations0 sample_db;
       data0 := <[13%Z := {| location := None; purged := false |}]>
                  (data0 sample_db) |}
  = operations sample_db.
Proof.
  exact (operations_forgets_unlocated sample_db 13%Z
           {| location := None; purged := true |} false eq_refl eq_refl).
Defined.

(** X12.  The flag of a purged [Data] row that has a location can still be
    read after the migration: the row keeps its key and its location, and
    that location is purged. *)
Theorem operations_keeps_located_flag (db : Db0) (k pk : Z) (d : Data)
    (loc0 : DataLocation0) :
  data0 db !! k = Some d → purged d = true → location d = Some pk →
  locations0 db !! pk = Some loc0 →
  data1 (operations db) !! k = Some {| location1 := Some pk |}
  ∧ locations1 (operations db) !! pk
    = Some {| subpath := subpath0 loc0; dl_purged := true |}.
Proof.
  intros Hd Hp Hl Hloc. unfold operations, remove_field_purged. simpl.
  split.
  - rewrite mark_purged_locations_data. simpl.
    by rewrite lookup_fmap, Hd; simpl; rewrite Hl.
  - rewrite mark_purged_locations_lookup. simpl.
    rewrite lookup_fmap, Hloc. simpl.
    assert (has_purged_data (add_field_purged db) pk = true) as ->; [|done].
    apply has_purged_data_true. eauto.
Qed.

Lemma operations_keeps_located_flag_witness :
  data1 (operations sample_db) !! 10%Z = Some {| location1 := Some 1%Z |}
  ∧ locations1 (operations sample_db) !! 1%Z
    = Some {| subpath := "a"; dl_purged := true |}.
Proof.
  exact (operations_keeps_located_flag sample_db 10%Z 1%Z
           {| location := Some 1%Z; purged := true |} {| subpath0 := "a" |}
           eq_refl eq_refl eq_refl eq_refl).
Defined.

End Migration0033Facts.

(** ** Creating and updating a [Relation] *)

Module RelationSerializerFacts.
Import RelationSerializer.
Import Effect(result, Ok, Raise, M, ret, raise, bind).

Section WithBackend.
Context (B : Backend).

(** *** The transaction block *)

Lemma transaction_atomic_raise {A} (body : DBM A) db db' e :
  transaction_atomic B body db = (db', Raise e) → db' = db.
Proof.
  unfold transaction_atomic. destruct (body db) as [db1 [a|e1]].
  - destruct (commit_check B db1); intros [= <- _]; done.
  - by intros [= <- _].
Qed.

Lemma transaction_atomic_ok {A} (body : DBM A) db db' a :
  transaction_atomic B body db = (db', Ok a) →
  body db = (db', Ok a) ∧ commit_check B db' = None.
Proof.
  unfold transaction_atomic. destruct (body db) as [db1 [a1|e1]]; [|done].
  destruct (commit_check B db1) eqn:E; [done|]. by intros [= <- <-].
Qed.

(** *** Writing partitions *)

Lemma RelationPartition_objects_create_ok row db db' :
  RelationPartition_objects_create B row db = (db', Ok ()) →
  relation_table db' = relation_table db
  ∧ (∀ k, k ≠ relation row → partitions_of k db' = partitions_of k db)
  ∧ stored_rows (relation row) db' ≡ₚ row :: stored_rows (relation row) db.
Proof.
  unfold RelationPartition_objects_create.
  destruct (partition_check B db row); [done|]. intros [= <-].
  set (k := fresh (dom (partition_table db))).
  assert (partition_table db !! k = None) as Hk
    by (apply not_elem_of_dom, is_fresh).
  split; [done|]. split.
  - intros k' Hk'. unfold partitions_of; simpl.
    rewrite map_filter_insert_False by (simpl; congruence).
    by rewrite delete_id.
  - unfold stored_rows, partitions_of; simpl.
    rewrite map_filter_insert_True by done.
    rewrite map_to_list_insert; [done|].
    apply map_lookup_filter_None. by left.
Qed.

Lemma partition_row_relation instance p row :
  partition_row instance p = Ok row → relation row = pk instance.
Proof.
  unfold partition_row. destruct (p !! "entity"); [|done]. by intros [= <-].
Qed.

(** A successful [_create_partitions] adds one row per listed partition to
    the partitions of the instance, and touches nothing else. *)
Lemma _create_partitions_ok instance ps : ∀ db db',
  _create_partitions B instance ps db = (db', Ok ()) →
  relation_table db' = relation_table db
  ∧ (∀ k, k ≠ pk instance → partitions_of k db' = partitions_of k db)
  ∧ ∃ rows,
      Forall2 (λ p row, partition_row instance p = Ok row) ps rows
      ∧ stored_rows (pk instance) db'
        ≡ₚ rows ++ stored_rows (pk instance) db.
Proof.
  induction ps as [|p ps IH]; intros db db'; simpl.
  - intros [= <-]. split; [done|]. split; [done|].
    exists []. split; [constructor | done].
  - destruct (partition_row instance p) as [row|e] eqn:Hrow; [|done].
    pose proof (partition_row_relation _ _ _ Hrow) as Hrel.
    unfold bind.
    destruct (RelationPartition_objects_create B row db) as [db1 [[]|e]] eqn:H1;
      [|done].
    apply RelationPartition_objects_create_ok in H1 as (Hr1 & Ho1 & Hs1).
    rewrite Hrel in Ho1, Hs1.
    intros H2. apply IH in H2 as (Hr2 & Ho2 & rows & Hrows & Hs2).
    split; [congruence|]. split.
    + intros k Hk. rewrite Ho2 by done. by apply Ho1.
    + exists (row :: rows). split; [by constructor|].
      rewrite Hs2, Hs1. simpl. by rewrite Permutation_middle.
Qed.

(** *** Deleting the partitions of an instance *)

Lemma delete_partitions_own instance db :
  partitions_of (pk instance) (delete_partitions instance db).1 = ∅.
Proof.
  unfold partitions_of, delete_partitions; simpl.
  apply map_eq; intros i. rewrite lookup_empty.
  apply map_lookup_filter_None. right. intros x Hx.
  apply map_lookup_filter_Some in Hx as [_ Hx]. simpl in *. tauto.
Qed.

Lemma delete_partitions_other instance db k :
  k ≠ pk instance →
  partitions_of k (delete_partitions instance db).1 = partitions_of k db.
Proof.
  intros Hk. unfold partitions_of, delete_partitions; simpl.
  apply map_eq; intros i. apply option_eq; intros x.
  rewrite !map_lookup_filter_Some; simpl. intuition congruence.
Qed.

(** The row written for a partition is the partition as given. *)
Lemma partition_rows_as_given instance ps rows :
  Forall2 (λ p row, partition_row instance p = Ok row) ps rows →
  Forall2 (row_as_given (pk instance)) ps rows.
Proof.
  intros H. eapply Forall2_impl; [exact H|].
  intros p row. unfold partition_row, row_as_given.
  destruct (p !! "entity") as [e|]; [|done]. intros [= <-]. simpl.
  repeat split; by destruct (p !! _).
Qed.

(** C9.  [create] and [update] are atomic.  When either raises, the database
    is the one it started from.  When [create] returns, the relation row and
    one row per listed partition have been added, each with the entity,
    label and position the input gives (no label or position is stored as
    [None]), and nothing else changed.  When [update] returns, the
    partitions stored for the relation are exactly those rows, one per
    listed partition: every partition it had before is gone; the partitions
    of other relations and the relation table are as the inherited [update]
    left them. *)
Theorem create_update_atomic (instance : Instance) (vd : ValidatedData)
    (db : Database) :
  (∀ db' e, create B vd db = (db', Raise e) → db' = db)
  ∧ (∀ db' new, create B vd db = (db', Ok new) →
       relation_table db !! pk new = None
       ∧ relation_table db' = <[pk new := fields vd]> (relation_table db)
       ∧ (∀ k, k ≠ pk new → partitions_of k db' = partitions_of k db)
       ∧ ∃ rows,
           Forall2 (row_as_given (pk new))
                   (default [] (relationpartition_set vd)) rows
           ∧ stored_rows (pk new) db' ≡ₚ rows ++ stored_rows (pk new) db)
  ∧ (∀ db' e, update B instance vd db = (db', Raise e) → db' = db)
  ∧ (∀ db' updated, update B instance vd db = (db', Ok updated) →
       ∃ db1,
         super_update B instance (fields vd) db = (db1, Ok updated)
         ∧ relation_table db' = relation_table db1
         ∧ (∀ k, k ≠ pk updated → partitions_of k db' = partitions_of k db1)
         ∧ ∃ rows,
             Forall2 (row_as_given (pk updated))
                     (default [] (relationpartition_set vd)) rows
             ∧ stored_rows (pk updated) db' ≡ₚ rows).
Proof.
  split; [|split; [|split]].
  - intros db' e. unfold create, pop_partitions.
    apply transaction_atomic_raise.
  - intros db' new. unfold create, pop_partitions.
    intros H. apply transaction_atomic_ok in H as [H _].
    unfold bind at 1 in H. unfold Relation_objects_create in H.
    destruct (relation_check B db (fields vd)); [done|].
    unfold bind, ret in H.
    match type of H with
    | match _create_partitions B ?i ?ps ?d with _ => _ end = _ =>
        destruct (_create_partitions B i ps d) as [db2 [[]|e]] eqn:Hcp;
        [|done]
    end.
    injection H as <- <-. simpl in *.
    apply _create_partitions_ok in Hcp as (Hr & Ho & rows & Hrows & Hs).
    simpl in *.
    split; [apply not_elem_of_dom, is_fresh|]. split; [done|].
    split; [done|]. exists rows. split; [|done].
    by apply partition_rows_as_given in Hrows.
  - intros db' e. unfold update, pop_partitions.
    apply transaction_atomic_raise.
  - intros db' updated. unfold update, pop_partitions.
    intros H. apply transaction_atomic_ok in H as [H _].
    unfold bind at 1 in H.
    destruct (super_update B instance (fields vd) db) as [db1 [inst|e]] eqn:Hs;
      [|done].
    unfold bind, ret in H.
    pose proof (delete_partitions_own inst db1) as Hown.
    pose proof (delete_partitions_other inst db1) as Hoth.
    destruct (delete_partitions inst db1) as [db2 [[]|e]] eqn:Hd; [|done].
    simpl in Hown, Hoth.
    assert (relation_table db2 = relation_table db1) as Hrel
      by (unfold delete_partitions in Hd; by injection Hd as <-).
    destruct (_create_partitions B inst
                (default [] (relationpartition_set vd)) db2)
      as [db3 [[]|e]] eqn:Hcp; [|done].
    injection H as <- <-.
    apply _create_partitions_ok in Hcp as (Hr & Ho & rows & Hrows & Hst).
    exists db1. split; [done|]. split; [congruence|]. split.
    + intros k Hk. rewrite Ho by done. by apply Hoth.
    + exists rows. split; [by apply partition_rows_as_given in Hrows|].
      rewrite Hst.
      unfold stored_rows. rewrite Hown, map_to_list_empty. simpl.
      by rewrite app_nil_r.
Qed.

(** *** Further properties of the serializer *)

(** Writing the partitions of a list is writing those of its first part,
    then those of the rest. *)
Lemma _create_partitions_app instance ps qs db :
  _create_partitions B instance (ps ++ qs) db
  = bind (_create_partitions B instance ps)
         (λ _, _create_partitions B instance qs) db.
Proof.
  revert db. unfold bind.
  induction ps as [|p ps IH]; intros db; simpl; [done|].
  destruct (partition_row instance p) as [row|e]; [|done].
  unfold bind.
  destruct (RelationPartition_objects_create B row db) as [db1 [[]|e]];
    [|done].
  apply IH.
Qed.


(** What a successful [update] leaves for the relation. *)
Lemma update_stored_rows instance vd db db' updated :
  update B instance vd db = (db', Ok updated) →
  ∃ rows,
    Forall2 (λ p row, partition_row updated p = Ok row)
            (default [] (relationpartition_set vd)) rows
    ∧ stored_rows (pk updated) db' ≡ₚ rows.
Proof.
  unfold update, pop_partitions.
  intros H. apply transaction_atomic_ok in H as [H _].
  unfold bind at 1 in H.
  destruct (super_update B instance (fields vd) db) as [db1 [inst|e]];
    [|done].
  unfold bind, ret in H.
  pose proof (delete_partitions_own inst db1) as Hown.
  destruct (delete_partitions inst db1) as [db2 [[]|e]]; [|done].
  simpl in Hown.
  destruct (_create_partitions B inst
              (default [] (relationpartition_set vd)) db2)
    as [db3 [[]|e]] eqn:Hcp; [|done].
  injection H as <- <-.
  apply _create_partitions_ok in Hcp as (_ & _ & rows & Hrows & Hst).
  exists rows. split; [done|]. rewrite Hst.
  unfold stored_rows. rewrite Hown, map_to_list_empty. simpl.
  by rewrite app_nil_r.
Qed.

(** X13.  Validated data without partitions (no [relationpartition_set]
    key, or an empty list): [create] writes no partition, and [update]
    removes every partition of the relation. *)
Theorem without_partitions (instance : Instance) (vd : ValidatedData)
    (db : Database) :
  default [] (relationpartition_set vd) = [] →
  (∀ db' new, create B vd db = (db', Ok new) →
     partition_table db' = partition_table db)
  ∧ (∀ db' updated, update B instance vd db = (db', Ok updated) →
       partitions_of (pk updated) db' = ∅).
Proof.
  intros Hnone. split.
  - intros db' new. unfold create, pop_partitions. rewrite Hnone.
    intros H. apply transaction_atomic_ok in H as [H _].
    unfold bind at 1 in H. unfold Relation_objects_create in H.
    destruct (relation_check B db (fields vd)); [done|].
    simpl in H. unfold bind, ret in H. by injection H as <- _.
  - intros db' updated H.
    apply update_stored_rows in H as (rows & Hrows & Hst).
    rewrite Hnone in Hrows. apply Forall2_nil_inv_l in Hrows as ->.
    apply Permutation_nil_r in Hst. unfold stored_rows in Hst.
    apply fmap_nil_inv in Hst. by apply map_to_list_empty_iff.
Qed.


(** Where the database accepts every partition row, well-formed partitions
    are all written. *)
Lemma _create_partitions_accepted instance ps :
  (∀ db row, partition_check B db row = None) →
  Forall (λ p, is_Some (p !! "entity")) ps →
  ∀ db, ∃ db', _create_partitions B instance ps db = (db', Ok ()).
Proof.
  intros Hacc Hps. induction Hps as [|p ps [e He] _ IH]; intros db; simpl.
  - by eexists.
  - unfold partition_row. rewrite He. unfold bind.
    unfold RelationPartition_objects_create at 1. rewrite Hacc. apply IH.
Qed.

(** X15.  [_create_partitions] does not undo its own writes: when a
    partition lacks [entity], it raises [KeyError] after the rows of the
    partitions listed before it have been written (here with a database
    that accepts every row).  The partitions listed after it are not looked
    at. *)
Theorem _create_partitions_stops_midway (instance : Instance)
    (before after : list (gmap string value)) (bad : gmap string value)
    (db : Database) :
  (∀ db row, partition_check B db row = None) →
  Forall (λ p, is_Some (p !! "entity")) before →
  bad !! "entity" = None →
  ∃ db' rows,
    _create_partitions B instance (before ++ bad :: after) db
    = (db', Raise (KeyError "entity"))
    ∧ Forall2 (λ p row, partition_row instance p = Ok row) before rows
    ∧ stored_rows (pk instance) db' ≡ₚ rows ++ stored_rows (pk instance) db
    ∧ relation_table db' = relation_table db.
Proof.
  intros Hacc Hbefore Hbad.
  destruct (_create_partitions_accepted instance before Hacc Hbefore db)
    as [db' Hok].
  pose proof Hok as Hspec.
  apply _create_partitions_ok in Hspec as (Hrel & _ & rows & Hrows & Hst).
  exists db', rows. split; [|done].
  rewrite _create_partitions_app. unfold bind. rewrite Hok. simpl.
  unfold partition_row. by rewrite Hbad.
Qed.

End WithBackend.

Lemma create_update_atomic_witness :
  (create sample_backend bad_data relations_db).1 = relations_db
  ∧ (update sample_backend sample_instance bad_data relations_db).1 = relations_db
  ∧ stored_rows 1
      (update sample_backend sample_instance good_data relations_db).1
    ≡ₚ [ {| relation := 1; entity := VInt 20;
            label := VNone; position := VInt 1 |};
         {| relation := 1; entity := VInt 21;
            label := VStr "case"; position := VNone |} ].
Proof.
  destruct (create_update_atomic sample_backend sample_instance bad_data
              relations_db) as (Hcreate & _ & Hupdate & _).
  destruct (create_update_atomic sample_backend sample_instance good_data
              relations_db) as (_ & _ & _ & Hgood).
  split; [|split].
  - apply (Hcreate _ (KeyError "entity")). vm_compute. reflexivity.
  - apply (Hupdate _ (KeyError "entity")). vm_compute. reflexivity.
  - destruct (Hgood
                (update sample_backend sample_instance good_data relations_db).1
                {| pk := 1;
                   attrs := fields good_data ∪ attrs sample_instance |})
      as (db1 & _ & _ & _ & rows & Hrows & Hstored).
    { vm_compute. reflexivity. }
    rewrite Hstored. simpl in Hrows.
    apply Forall2_cons_inv_l in Hrows as (r1 & rest & H1 & Hrows & ->).
    apply Forall2_cons_inv_l in Hrows as (r2 & rest' & H2 & Hrows & ->).
    apply Forall2_nil_inv_l in Hrows as ->.
    destruct r1, r2. vm_compute in H1, H2.
    destruct H1 as (? & ? & ? & ?), H2 as (? & ? & ? & ?).
    simplify_eq. reflexivity.
Defined.

(** The failed writes are rolled back; the successful update leaves the
    relation with the two listed partitions and the other relation with
    its own. *)
Example update_replaces_partitions :
  stored_rows 1 (update sample_backend sample_instance good_data relations_db).1
  ≡ₚ [ {| relation := 1; entity := VInt 20;
          label := VNone; position := VInt 1 |};
       {| relation := 1; entity := VInt 21;
          label := VStr "case"; position := VNone |} ]
  ∧ stored_rows 5
      (update sample_backend sample_instance good_data relations_db).1
    = [ {| relation := 5; entity := VInt 12;
           label := VNone; position := VNone |} ].
Proof.
  split.
  - vm_compute. apply perm_swap.
  - vm_compute. reflexivity.
Qed.

Lemma without_partitions_witness :
  partitions_of 1
    (update sample_backend sample_instance no_partitions_data relations_db).1
  = ∅.
Proof.
  refine (proj2 (without_partitions sample_backend sample_instance
                   no_partitions_data relations_db eq_refl) _
            {| pk := 1;
               attrs := fields no_partitions_data ∪ attrs sample_instance |}
            _).
  vm_compute. reflexivity.
Defined.


Lemma _create_partitions_stops_midway_witness :
  ∃ db' rows,
    _create_partitions lenient_backend sample_instance
      ([ {[ "entity" := VInt 20 ]} ] ++ {[ "label" := VStr "case" ]} :: [])
      relations_db
    = (db', Raise (KeyError "entity"))
    ∧ length rows = 1
    ∧ stored_rows 1 db' ≡ₚ rows ++ stored_rows 1 relations_db.
Proof.
  destruct (_create_partitions_stops_midway lenient_backend sample_instance
              [ {[ "entity" := VInt 20 ]} ] [] {[ "label" := VStr "case" ]}
              relations_db)
    as (db' & rows & Hraise & Hrows & Hst & _).
  - reflexivity.
  - repeat constructor. by eexists.
  - reflexivity.
  - exists db', rows. split; [exact Hraise|]. split; [|exact Hst].
    apply Forall2_length in Hrows. simpl in Hrows. congruence.
Defined.

End RelationSerializerFacts.

(** ** The executor bootstrap *)

Module BootstrapFacts.
Import Bootstrap.
Import Effect(result, Ok, Raise, M, ret, raise, bind).

(** *** Reading traces *)

Lemma all_beforeb_sound a b l :
  all_beforeb a b l = true → all_before a b l.
Proof.
  induction l as [|x l IH]; simpl; intros H i j Hi Hj.
  - by rewrite lookup_nil in Hi.
  - apply andb_prop in H as [Hx Hl].
    destruct j as [|j].
    + simpl in Hj. injection Hj as ->.
      apply orb_prop in Hx as [Hx|Hx];
        apply negb_true_iff, bool_decide_eq_false in Hx; [done|].
      exfalso. apply Hx. by eapply list_elem_of_lookup_2.
    + destruct i as [|i]; [lia|]. simpl in *.
      specialize (IH Hl i j Hi Hj). lia.
Qed.

Lemma once_beforeb_sound a b l :
  once_beforeb a b l = true → once_before a b l.
Proof.
  unfold once_beforeb, once_before. intros H.
  apply andb_prop in H as [H H3]. apply andb_prop in H as [H1 H2].
  apply bool_decide_eq_true in H1, H2.
  split; [done|]. split; [done|]. by apply all_beforeb_sound.
Qed.

(** A step that is not taken precedes nothing and follows nothing. *)
Lemma all_before_absent_r a b l : b ∉ l → all_before a b l.
Proof.
  intros Hb i j _ Hj. exfalso. apply Hb. by eapply list_elem_of_lookup_2.
Qed.

(** *** Walking the paths of the program

    The program is a straight line whose every call may raise.
    [unfold_program] exposes the calls; [case_step] splits on the outcome of
    the next one. *)

Ltac unfold_program :=
  unfold main, main_block, run_until_complete, _sequential, run_executor,
    script_block, with_open, read, parser_parse_args, getattr,
    configure_logging, get_logging_future_list, call, await, gather,
    bind, ret, raise, emit, initial in *.

Ltac case_step :=
  match goal with
  | |- context [match ?x with _ => _ end] =>
      lazymatch x with
      | context [match _ with _ => _ end] => fail
      | _ => destruct x eqn:?; simpl in *
      end
  end.

(** Decide a closed fact about a list of steps. *)
Ltac decide_steps :=
  first
    [ apply once_beforeb_sound; vm_compute; reflexivity
    | apply all_beforeb_sound; vm_compute; reflexivity
    | apply (bool_decide_unpack _); vm_compute; exact I ].

(** Invert the membership of an event in an explicit trace. *)
Ltac invert_elem H :=
  repeat (apply elem_of_cons in H as [H|H];
          [ try discriminate H; try simplify_eq | ]);
  try (apply elem_of_nil in H; destruct H).

(** A run that ends normally took every step of the sequence, once and in
    order. *)
Lemma success_steps (w : World) :
  (main w).2 = Ok () → steps (main w).1 = full_sequence.
Proof.
  unfold steps. unfold_program. simpl.
  destruct (manager_init w) as [ifuts [[]|iname]]; simpl; [|done].
  destruct (parse_args w) as [m|msg|]; simpl; [|done|done].
  repeat (case_step; try done).
Qed.

(** What the logging drain of a run that ends normally awaits: every handle
    appended before it, those of manager init first. *)
Lemma success_drain (w : World) :
  (main w).2 = Ok () →
  ∃ run_futures,
    EvGatherLogging ((manager_init w).1 ++ run_futures) ∈ trace (main w).1
    ∧ logging_future_list (main w).1
      = ((manager_init w).1 ++ run_futures) ++ (manager_deinit w).1.
Proof.
  unfold_program. simpl.
  destruct (manager_init w) as [ifuts [[]|iname]]; simpl; [|done].
  destruct (parse_args w) as [m|msg|]; simpl; [|done|done].
  repeat (case_step; try done);
    intros _; eexists; (split; [|reflexivity]);
    apply list_elem_of_In; simpl; tauto.
Qed.

(** The block, once [_sequential] has run. *)
Lemma main_after_sequential (w : World) :
  main w
  = match _sequential w configured with
    | (st, Ok _) =>
        bind (emit (EvGatherLogging (logging_future_list st)))
          (λ _, bind (gather (logging_future_list st))
             (λ _, bind (emit EvManagerDeinit)
                (λ _, bind (await (manager_deinit w))
                   (λ _, bind (emit (EvGatherPending (all_tasks w)))
                      (λ _, bind (gather (all_tasks w))
                         (λ _, emit EvLoopClose)))))) st
    | (st, Raise e) => (st, Raise e)
    end.
Proof.
  unfold main, main_block, run_until_complete, configured,
    get_logging_future_list.
  unfold bind at 1. unfold configure_logging at 1. simpl.
  unfold bind at 1.
  destruct (_sequential w (emit EvConfigureLogging initial).1)
    as [st [[]|e]]; reflexivity.
Qed.

(** Awaiting handles returns only when none of them carries an
    exception. *)
Lemma gather_returns (futures : list Future) (st st' : St) :
  gather futures st = (st', Ok ()) →
  st' = st ∧ ∀ f, f ∈ futures → fut_exception f = None.
Proof.
  unfold gather.
  destruct (list_find (λ f, is_Some (fut_exception f)) futures)
    as [[i [fid [name|]]]|] eqn:Hfind.
  - done.
  - apply list_find_Some in Hfind as (_ & [? Hs] & _). discriminate Hs.
  - intros [= <-]. split; [done|]. intros f Hin.
    apply list_find_None in Hfind. rewrite Forall_forall in Hfind.
    specialize (Hfind f Hin).
    destruct (fut_exception f) eqn:E; [|done].
    exfalso. apply Hfind. by eexists.
Qed.

(** When [_sequential] returns, every call it makes has returned: manager
    init, the import, the lookup and the call of the class, and [run],
    awaited to its end, whose handles are on the shared list after those of
    manager init. *)
Lemma sequential_returns (w : World) (st : St) :
  _sequential w configured = (st, Ok ()) →
  ∃ m module cls executor executor_run pid script,
    parse_args w = Namespace m
    ∧ import_module w (m +:+ ".run") (package w) = Returns module
    ∧ module !! "FlowExecutor" = Some cls
    ∧ instantiate cls [] = Returns executor
    ∧ run executor = Some executor_run
    ∧ (manager_init w).2 = Returns ()
    ∧ (executor_run pid script).2 = Returns ()
    ∧ trace st
      = [EvConfigureLogging; EvManagerInit; EvParseArgs;
         EvImportModule (m +:+ ".run") (package w); EvGetAttr "FlowExecutor";
         EvCall []; EvOpen (PROCESS_SCRIPT w) "rt"; EvRead;
         EvRun pid script; EvClose]
    ∧ logging_future_list st
      = (manager_init w).1 ++ (executor_run pid script).1.
Proof.
  revert st. unfold configured.
  unfold _sequential, run_executor, script_block, with_open, read,
    parser_parse_args, getattr, configure_logging, call, await, bind, ret,
    raise, emit, initial. simpl.
  destruct (manager_init w) as [ifuts [[]|iname]]; simpl; [|done].
  destruct (parse_args w) as [m|msg|]; simpl; [|done|done].
  repeat (case_step; try done).
  intros st [= <-].
  repeat match goal with u : () |- _ => destruct u end.
  exists m. do 6 eexists.
  repeat (split; [first [reflexivity | eassumption]|]).
  reflexivity.
Qed.

(** When the block returns, [_sequential] has returned, no awaited handle
    carried an exception, and manager deinit has returned. *)
Lemma main_returns (w : World) :
  (main w).2 = Ok () →
  ∃ st,
    _sequential w configured = (st, Ok ())
    ∧ (∀ f, f ∈ logging_future_list st → fut_exception f = None)
    ∧ (manager_deinit w).2 = Returns ()
    ∧ (∀ f, f ∈ all_tasks w → fut_exception f = None)
    ∧ main w
      = ({| trace := trace st
                     ++ [EvGatherLogging (logging_future_list st);
                         EvManagerDeinit; EvGatherPending (all_tasks w);
                         EvLoopClose];
            logging_future_list :=
              logging_future_list st ++ (manager_deinit w).1 |},
         Ok ()).
Proof.
  rewrite main_after_sequential.
  destruct (_sequential w configured) as [st [[]|e]]; [|done].
  match goal with |- (?x).2 = _ → _ => remember x as res eqn:Hres end.
  revert Hres.
  unfold bind at 1. unfold emit at 1. unfold bind at 1.
  destruct (gather (logging_future_list st) _) as [st1 [[]|e]] eqn:Hg1;
    [|by intros ->].
  apply gather_returns in Hg1 as [-> Hlog].
  unfold bind at 1. unfold emit at 1. unfold bind at 1.
  unfold await at 1. cbn [trace logging_future_list].
  destruct (manager_deinit w) as [dfuts [[]|dname]]; cbn [fst snd];
    [|by intros ->].
  unfold bind at 1. unfold emit at 1. unfold bind at 1.
  destruct (gather (all_tasks w) _) as [st2 [[]|e]] eqn:Hg2;
    [|by intros ->].
  apply gather_returns in Hg2 as [-> Hall].
  unfold emit. cbn [fst snd trace logging_future_list].
  intros -> _. exists st. repeat (split; [done|]).
  by rewrite <- !app_assoc.
Qed.

(** C1.  In every invocation that ends normally (the module resolved to a
    class whose [run] returned), manager init is called exactly once and
    before [run] starts, the drain of the logging handles comes after [run],
    and manager deinit is called exactly once, after [run] and after that
    drain.  Each of these calls was awaited to its end before the next one
    was made: manager init returned, then [run] returned, then the drain
    awaited the handles of both (those [run] appended while it ran
    included) and none of them carried an exception, then manager deinit
    returned; the handles it appended are not among the drained ones. *)
Theorem bootstrap_success_order (w : World) :
  (main w).2 = Ok () →
  let l := steps (main w).1 in
  l = [SConfigureLogging; SManagerInit; SParseArgs; SImport; SGetAttr;
       SConstruct; SOpen; SRead; SRun; SClose; SGatherLogging;
       SManagerDeinit; SGatherPending; SLoopClose]
  ∧ once_before SManagerInit SRun l
  ∧ once_before SRun SGatherLogging l
  ∧ once_before SGatherLogging SManagerDeinit l
  ∧ once_before SRun SManagerDeinit l
  ∧ times SManagerDeinit l = 1
  ∧ (∃ run_futures,
      EvGatherLogging ((manager_init w).1 ++ run_futures) ∈ trace (main w).1
      ∧ logging_future_list (main w).1
        = ((manager_init w).1 ++ run_futures) ++ (manager_deinit w).1)
  ∧ ∃ m module cls executor executor_run pid script,
      parse_args w = Namespace m
      ∧ import_module w (m +:+ ".run") (package w) = Returns module
      ∧ module !! "FlowExecutor" = Some cls
      ∧ instantiate cls [] = Returns executor
      ∧ run executor = Some executor_run
      ∧ (manager_init w).2 = Returns ()
      ∧ (executor_run pid script).2 = Returns ()
      ∧ (manager_deinit w).2 = Returns ()
      ∧ trace (main w).1
        = [EvConfigureLogging; EvManagerInit; EvParseArgs;
           EvImportModule (m +:+ ".run") (package w);
           EvGetAttr "FlowExecutor"; EvCall [];
           EvOpen (PROCESS_SCRIPT w) "rt"; EvRead; EvRun pid script; EvClose;
           EvGatherLogging
             ((manager_init w).1 ++ (executor_run pid script).1);
           EvManagerDeinit; EvGatherPending (all_tasks w); EvLoopClose]
      ∧ logging_future_list (main w).1
        = ((manager_init w).1 ++ (executor_run pid script).1)
          ++ (manager_deinit w).1
      ∧ (∀ f, f ∈ (manager_init w).1 ++ (executor_run pid script).1 →
              fut_exception f = None)
      ∧ (∀ f, f ∈ all_tasks w → fut_exception f = None).
Proof.
  intros Hok l. subst l.
  rewrite (success_steps w Hok).
  split; [reflexivity|].
  do 4 (split; [decide_steps|]).
  split; [reflexivity|]. split; [by apply success_drain|].
  destruct (main_returns w Hok) as (st & Hseq & Hlog & Hdeinit & Hall & Hmain).
  destruct (sequential_returns w st Hseq)
    as (m & module & cls & executor & executor_run & pid & script
        & Hp & Hi & Hc & Hn & Hr & Hinit & Hrun & Htrace & Hlfl).
  exists m, module, cls, executor, executor_run, pid, script.
  rewrite Hmain. cbn [fst snd trace logging_future_list].
  rewrite Htrace, Hlfl. rewrite Hlfl in Hlog.
  repeat (split; [done|]). done.
Qed.

Lemma bootstrap_success_order_witness :
  once_before SManagerInit SRun (steps (main docker_world).1)
  ∧ once_before SRun SManagerDeinit (steps (main docker_world).1)
  ∧ EvGatherLogging [log 1; log 2] ∈ trace (main docker_world).1.
Proof.
  destruct (bootstrap_success_order docker_world eq_refl)
    as (_ & Hinit & _ & _ & Hdeinit & _ & _
        & m & module & cls & executor & executor_run & pid & script
        & Hp & Hi & Hc & Hn & Hr & _ & _ & _ & Htrace & _).
  split; [exact Hinit|]. split; [exact Hdeinit|].
  injection Hp as <-.
  vm_compute in Hi. injection Hi as <-.
  vm_compute in Hc. injection Hc as <-.
  vm_compute in Hn. injection Hn as <-.
  vm_compute in Hr. injection Hr as <-.
  rewrite Htrace. apply list_elem_of_In. simpl. tauto.
Defined.

(** The property of the specification fails where the module does not
    exist: the manager connection has been initialised by the time the
    import fails. *)
Lemma fails_before_manager_init_counterexample :
  ¬ fails_before_manager_init nosuch_world.
Proof.
  intros H.
  assert (invalid_module nosuch_world) as Hinv.
  { exists ".nosuch". split; [reflexivity|]. left.
    exists "ModuleNotFoundError". reflexivity. }
  destruct (H Hinv) as [_ Hno]. apply Hno.
  apply (bool_decide_unpack _). vm_compute. exact I.
Qed.

(** C2, as the code has it.  With a module name that does not resolve the
    bootstrap fails, and manager init has been called by then: it is called
    exactly once, before the import is attempted.  The executor is neither
    constructed nor run and manager deinit is not called.  When manager init
    returns, the import is attempted and the failure is an ordinary
    exception, so the exit status is 1. *)
Theorem invalid_module_fails_after_manager_init (w : World) :
  invalid_module w →
  let l := steps (main w).1 in
  (∃ e, (main w).2 = Raise e)
  ∧ times SManagerInit l = 1
  ∧ all_before SManagerInit SImport l
  ∧ (SConstruct ∉ l) ∧ (SRun ∉ l) ∧ (SManagerDeinit ∉ l)
  ∧ ((manager_init w).2 = Returns () →
       once_before SManagerInit SImport l
       ∧ ∃ name, (main w).2 = Raise (PyExc name)).
Proof.
  intros (m & Hp & Hres). unfold steps. unfold_program. simpl.
  destruct (manager_init w) as [ifuts [[]|iname]]; simpl.
  - rewrite Hp; simpl.
    destruct Hres as [[name Hi] | (module & Hi & Hc)]; rewrite Hi; simpl;
      [|rewrite Hc; simpl];
      (split; [by eexists|]);
      (split; [reflexivity|]);
      do 4 (split; [decide_steps|]);
      intros _; (split; [decide_steps | by eexists]).
  - split; [by eexists|]. split; [reflexivity|].
    do 4 (split; [decide_steps|]). done.
Qed.

Lemma invalid_module_fails_after_manager_init_witness :
  once_before SManagerInit SImport (steps (main nosuch_world).1)
  ∧ ∃ name, (main nosuch_world).2 = Raise (PyExc name).
Proof.
  assert (invalid_module nosuch_world) as Hinv.
  { exists ".nosuch". split; [reflexivity|]. left.
    exists "ModuleNotFoundError". reflexivity. }
  apply (invalid_module_fails_after_manager_init nosuch_world Hinv).
  reflexivity.
Defined.



(** C4.  When [run] was started and an exception left [_sequential] (so it
    is [run] that raised), manager init was called exactly once and before
    [run]; manager deinit is not called before [run] has completed: on this
    path it is not called at all. *)
Theorem deinit_not_before_failed_run (w : World) (st : St) (e : exn) :
  _sequential w configured = (st, Raise e) →
  SRun ∈ steps st →
  let l := steps (main w).1 in
  once_before SManagerInit SRun l
  ∧ (SManagerDeinit ∉ l)
  ∧ all_before SRun SManagerDeinit l
  ∧ ¬ precedes SManagerDeinit SRun l
  ∧ (main w).2 = Raise e
  ∧ ∃ name, e = PyExc name.
Proof.
  intros Hseq Hrun l.
  assert (l = [SConfigureLogging; SManagerInit; SParseArgs; SImport;
               SGetAttr; SConstruct; SOpen; SRead; SRun; SClose]
          ∧ (main w).2 = Raise e ∧ ∃ name, e = PyExc name) as (-> & Hm & He).
  { subst l. revert st e Hseq Hrun. unfold steps, configured.
    unfold_program. simpl.
    destruct (manager_init w) as [ifuts [[]|iname]]; simpl;
      [destruct (parse_args w) as [m|msg|]; simpl|];
      repeat (case_step; try done);
      intros st e [= <- <-]; simpl; intros Hrun;
      try (by invert_elem Hrun);
      (split; [reflexivity|]); (split; [reflexivity|]); by eexists. }
  split; [decide_steps|]. split; [decide_steps|].
  split; [decide_steps|]. split; [|done].
  intros (i & j & Hi & _ & _).
  apply list_elem_of_lookup_2 in Hi. by invert_elem Hi.
Qed.

Lemma deinit_not_before_failed_run_witness :
  once_before SManagerInit SRun (steps (main broken_world).1)
  ∧ (SManagerDeinit ∉ steps (main broken_world).1).
Proof.
  refine ((λ H, conj (proj1 H) (proj1 (proj2 H)))
            (deinit_not_before_failed_run broken_world _
               (PyExc "RuntimeError") _ _)).
  - vm_compute. reflexivity.
  - apply (bool_decide_unpack _). vm_compute. exact I.
Defined.

(** The state after further calls. *)
Lemma resolution_events (w : World) (m : string) (st : St)
    (module : gmap string PyClass) (cls : PyClass) (ex : Executor) :
  parse_args w = Namespace m →
  import_module w (m +:+ ".run") (package w) = Returns module →
  module !! "FlowExecutor" = Some cls →
  instantiate cls [] = Returns ex →
  run_executor w st
  = script_block w ex
      {| trace := trace st ++ [EvParseArgs;
                               EvImportModule (m +:+ ".run") (package w);
                               EvGetAttr "FlowExecutor"; EvCall []];
         logging_future_list := logging_future_list st |}.
Proof.
  intros Hp Hi Hc Hn.
  unfold run_executor, parser_parse_args, getattr, call, bind, ret, raise,
    emit. simpl.
  rewrite Hp; simpl. rewrite Hi; simpl. rewrite Hc; simpl.
  rewrite Hn; simpl. by rewrite <- !app_assoc.
Qed.

(** C5.  For the module argument [m], the only import the bootstrap attempts
    is that of [m ++ ".run"] with the package as anchor, the only attribute
    it looks up in the module is [FlowExecutor], and the only call of the
    class passes no argument; the import is attempted whenever manager init
    returned.  When these succeed, the executor whose [run] is used is the
    instance this call returned. *)
Theorem resolves_FlowExecutor (w : World) (m : string) :
  parse_args w = Namespace m →
  (∀ name anchor, EvImportModule name anchor ∈ trace (main w).1 →
     name = m +:+ ".run" ∧ anchor = package w)
  ∧ (∀ name, EvGetAttr name ∈ trace (main w).1 → name = "FlowExecutor")
  ∧ (∀ args, EvCall args ∈ trace (main w).1 → args = [])
  ∧ ((manager_init w).2 = Returns () →
       EvImportModule (m +:+ ".run") (package w) ∈ trace (main w).1)
  ∧ (∀ st module cls ex,
       import_module w (m +:+ ".run") (package w) = Returns module →
       module !! "FlowExecutor" = Some cls →
       instantiate cls [] = Returns ex →
       run_executor w st
       = script_block w ex
           {| trace := trace st ++ [EvParseArgs;
                                    EvImportModule (m +:+ ".run") (package w);
                                    EvGetAttr "FlowExecutor"; EvCall []];
              logging_future_list := logging_future_list st |}).
Proof.
  intros Hp.
  split; [|split; [|split; [|split]]].
  5: { intros st module cls ex. by apply resolution_events. }
  all: unfold_program; simpl;
    destruct (manager_init w) as [ifuts [[]|iname]]; simpl;
    rewrite ?Hp; simpl;
    repeat (case_step; try done).
  all: try (intros ? ? H; by invert_elem H).
  all: try (intros ? H; by invert_elem H).
  all: try (intros _; apply list_elem_of_In; simpl; tauto).
  all: intros [=].
Qed.

Lemma resolves_FlowExecutor_witness :
  EvImportModule ".docker.run" "executors" ∈ trace (main docker_world).1
  ∧ (∀ args, EvCall args ∈ trace (main docker_world).1 → args = []).
Proof.
  refine ((λ H, conj (proj1 (proj2 (proj2 (proj2 H))) eq_refl)
                     (proj1 (proj2 (proj2 H))))
            (resolves_FlowExecutor docker_world ".docker" eq_refl)).
Defined.

(** *** The script handed to [run] *)

Lemma translate_newlines_id (t : text) :
  13%N ∉ t → translate_newlines t = t.
Proof.
  induction t as [|c t IH]; [done|]. intros Hc.
  apply not_elem_of_cons in Hc as [Hc Ht]. simpl.
  destruct (c =? 13)%N eqn:E; [apply N.eqb_eq in E; congruence|].
  by rewrite IH.
Qed.

(** Where the arguments of [run] come from. *)
Lemma run_event_origin (w : World) (pid : Z) (script : text) :
  EvRun pid script ∈ trace (main w).1 →
  ∃ content,
    files w !! PROCESS_SCRIPT w = Some content
    ∧ read_text (preferred_encoding w) content = Some script
    ∧ DATA w !! "id" = Some pid
    ∧ EvOpen (PROCESS_SCRIPT w) "rt" ∈ trace (main w).1
    ∧ times SRun (steps (main w).1) = 1.
Proof.
  unfold steps. unfold_program. simpl.
  destruct (manager_init w) as [ifuts [[]|iname]]; simpl;
    [destruct (parse_args w) as [m|msg|]; simpl|];
    repeat (case_step; try done).
  all: intros H; invert_elem H.
  all: eexists; (split; [reflexivity|]); (split; [eassumption|]);
    (split; [reflexivity|]);
    (split; [apply list_elem_of_In; simpl; tauto | reflexivity]).
Qed.

(** The property of the specification fails under a Latin-1 locale: the two
    bytes that encode [U+00E9] in UTF-8 reach [run] as two characters, and
    the carriage return is gone. *)
Lemma passes_utf8_verbatim_counterexample :
  ¬ passes_utf8_verbatim latin1_world.
Proof.
  intros H.
  destruct (H 42%Z [195; 169; 10]%N) as (content & Hf & Hd & _).
  { apply list_elem_of_In. vm_compute. tauto. }
  vm_compute in Hf. injection Hf as <-.
  vm_compute in Hd. discriminate Hd.
Qed.

(** It fails under a UTF-8 locale as well when the file has Windows line
    endings: the carriage return does not reach [run]. *)
Example passes_utf8_verbatim_fails_on_crlf :
  ¬ passes_utf8_verbatim utf8_crlf_world.
Proof.
  intros H.
  destruct (H 42%Z [233; 10]%N) as (content & Hf & Hd & _).
  { apply list_elem_of_In. vm_compute. tauto. }
  vm_compute in Hf. injection Hf as <-.
  vm_compute in Hd. discriminate Hd.
Qed.

(** C6, as the code has it.  [run] is called at most once; its arguments are
    the identifier stored under ["id"] in [DATA] and the text that reading
    the file at [PROCESS_SCRIPT], opened with mode ["rt"], returns: the
    content decoded with the locale's preferred encoding, line endings
    turned into line feeds, and nothing else changed.  It is the decoded
    content itself when that holds no carriage return. *)
Theorem script_passed_as_read (w : World) (pid : Z) (script : text) :
  EvRun pid script ∈ trace (main w).1 →
  ∃ content decoded,
    files w !! PROCESS_SCRIPT w = Some content
    ∧ EvOpen (PROCESS_SCRIPT w) "rt" ∈ trace (main w).1
    ∧ decode (preferred_encoding w) content = Some decoded
    ∧ script = translate_newlines decoded
    ∧ (13%N ∉ decoded → script = decoded)
    ∧ DATA w !! "id" = Some pid
    ∧ times SRun (steps (main w).1) = 1.
Proof.
  intros H.
  apply run_event_origin in H as (content & Hf & Hr & Hd & Ho & Ht).
  unfold read_text in Hr. apply fmap_Some in Hr as (decoded & Hdec & ->).
  exists content, decoded. repeat (split; [done|]).
  split; [|done]. by apply translate_newlines_id.
Qed.

Lemma script_passed_as_read_witness :
  ∃ content decoded,
    files utf8_crlf_world !! PROCESS_SCRIPT utf8_crlf_world = Some content
    ∧ decode UTF_8 content = Some decoded
    ∧ [233; 10]%N = translate_newlines decoded.
Proof.
  destruct (script_passed_as_read utf8_crlf_world 42%Z [233; 10]%N)
    as (content & decoded & Hf & _ & Hd & Hs & _).
  { apply list_elem_of_In. vm_compute. tauto. }
  exists content, decoded. repeat split; assumption.
Defined.

(** *** Argument errors *)

(** The property of the specification fails where manager init raises: the
    command line is never parsed, so the missing argument is not reported
    at all. *)
Lemma reports_argument_error_counterexample :
  ¬ reports_argument_error noargs_unreachable_world.
Proof.
  intros H. destruct (H (or_introl eq_refl)) as [[message Hin] _].
  vm_compute in Hin. by invert_elem Hin.
Qed.

(** C7, as the code has it.  With a missing or rejected argument, or a
    module name that does not resolve, the invocation ends with an
    exception.  A command line without the module argument is a usage
    error.  The command line is parsed inside [run_executor], after
    manager init: when manager init returns, a command line that [argparse]
    rejects makes the bootstrap write the usage message and raise
    [SystemExit(2)] at once (nothing happens between the parsing and the
    report, and nothing after it), and the exit status is 2; when manager
    init raises, the invocation ends with the exception of manager init and
    the command line is neither parsed nor reported.  A module name that
    does not resolve is not reported by the bootstrap: once manager init
    has returned, the exception of the import or of the class lookup leaves
    the block, nothing further is run, and the exit status is 1. *)
Theorem usage_error_reported_after_manager_init (w : World) :
  missing_argument w ∨ rejected_argument w ∨ invalid_module w →
  (∃ e, (main w).2 = Raise e)
  ∧ (missing_argument w →
     parse_args w
     = UsageError "the following arguments are required: module")
  ∧ (∀ message st, parse_args w = UsageError message →
       run_executor w st
       = ({| trace := trace st ++ [EvParseArgs; EvStderr message];
             logging_future_list := logging_future_list st |},
          Raise (SystemExit 2)))
  ∧ (∀ message, parse_args w = UsageError message →
       (manager_init w).2 = Returns () →
       main w
       = ({| trace := [EvConfigureLogging; EvManagerInit; EvParseArgs;
                       EvStderr message];
             logging_future_list := (manager_init w).1 |},
          Raise (SystemExit 2))
       ∧ exit_status (main w).2 = 2%Z)
  ∧ (∀ name, (manager_init w).2 = Raises name →
       main w
       = ({| trace := [EvConfigureLogging; EvManagerInit];
             logging_future_list := (manager_init w).1 |},
          Raise (PyExc name)))
  ∧ (invalid_module w → (manager_init w).2 = Returns () →
       (∃ name, (main w).2 = Raise (PyExc name))
       ∧ exit_status (main w).2 = 1%Z
       ∧ (SReport ∉ steps (main w).1)
       ∧ (SConstruct ∉ steps (main w).1)
       ∧ (last (steps (main w).1) = Some SImport
          ∨ last (steps (main w).1) = Some SGetAttr)).
Proof.
  assert (missing_argument w →
          parse_args w
          = UsageError "the following arguments are required: module")
    as Hmissing.
  { unfold missing_argument, parse_args. by intros ->. }
  intros Hbad.
  assert (rejected_argument w ∨ invalid_module w) as Hbad'.
  { destruct Hbad as [Hm|[Hr|Hi]]; [left|by left|by right].
    eexists. by apply Hmissing. }
  clear Hbad. split; [|split; [done|split; [|split; [|split]]]].
  - unfold_program. simpl.
    destruct (manager_init w) as [ifuts [[]|iname]]; simpl; [|by eexists].
    destruct Hbad' as [[message Hp] | (m & Hp & Hres)]; rewrite Hp; simpl;
      [by eexists|].
    destruct Hres as [[name Hi] | (module & Hi & Hc)]; rewrite Hi; simpl;
      [by eexists|]. rewrite Hc. by eexists.
  - intros message st Hp.
    unfold run_executor, parser_parse_args, bind, ret, raise, emit. simpl.
    rewrite Hp; simpl. by rewrite <- app_assoc.
  - intros message Hp. unfold_program. simpl.
    destruct (manager_init w) as [ifuts [[]|iname]]; simpl; [|done].
    intros _. by rewrite Hp.
  - intros name. unfold_program. simpl.
    destruct (manager_init w) as [ifuts [[]|iname]]; simpl; [done|].
    by intros [= ->].
  - intros (m & Hp & Hres). unfold steps. unfold_program. simpl.
    destruct (manager_init w) as [ifuts [[]|iname]]; simpl; [|done].
    intros _. rewrite Hp; simpl.
    destruct Hres as [[name Hi] | (module & Hi & Hc)]; rewrite Hi; simpl;
      [|rewrite Hc; simpl];
      (split; [by eexists|]); (split; [reflexivity|]);
      (split; [decide_steps|]); (split; [decide_steps|]); auto.
Qed.

Lemma usage_error_reported_after_manager_init_witness :
  exit_status (main noargs_world).2 = 2%Z
  ∧ EvStderr "the following arguments are required: module"
    ∈ trace (main noargs_world).1
  ∧ main noargs_unreachable_world
    = ({| trace := [EvConfigureLogging; EvManagerInit];
          logging_future_list := [] |},
       Raise (PyExc "ConnectionError"))
  ∧ exit_status (main empty_world).2 = 1%Z.
Proof.
  assert (invalid_module empty_world) as Hinv.
  { exists ".empty". split; [reflexivity|].
    right. exists ∅. split; reflexivity. }
  destruct (usage_error_reported_after_manager_init noargs_world
              (or_introl eq_refl)) as (_ & _ & _ & Husage & _).
  destruct (usage_error_reported_after_manager_init noargs_unreachable_world
              (or_introl eq_refl)) as (_ & _ & _ & _ & Hraises & _).
  destruct (usage_error_reported_after_manager_init empty_world
              (or_intror (or_intror Hinv))) as (_ & _ & _ & _ & _ & Hres).
  destruct (Husage _ eq_refl eq_refl) as [Hmain Hexit].
  split; [exact Hexit|]. split.
  - rewrite Hmain. apply list_elem_of_In. simpl. tauto.
  - split; [exact (Hraises _ eq_refl)|]. apply (Hres Hinv eq_refl).
Defined.

(** *** The sample worlds, run *)

Example parse_args_samples :
  parse_args noargs_world
  = UsageError "the following arguments are required: module"
  ∧ parse_args docker_world = Namespace ".docker"
  ∧ parse_args (sample_world [".docker"; "a"; "b"] connected UTF_8 [])
    = UsageError "unrecognized arguments: a b"
  ∧ parse_args (sample_world ["-h"] connected UTF_8 []) = HelpRequested.
Proof. repeat split; reflexivity. Qed.

Example docker_world_runs :
  trace (main docker_world).1
  = [EvConfigureLogging; EvManagerInit; EvParseArgs;
     EvImportModule ".docker.run" "executors"; EvGetAttr "FlowExecutor";
     EvCall []; EvOpen "process_script.sh" "rt"; EvRead;
     EvRun 42 [101; 99; 104; 111; 32; 104; 105; 10]%N; EvClose;
     EvGatherLogging [log 1; log 2]; EvManagerDeinit;
     EvGatherPending [log 1; log 2]; EvLoopClose]
  ∧ exit_status (main docker_world).2 = 0%Z.
Proof. vm_compute. split; reflexivity. Qed.

Example broken_world_aborts :
  main broken_world
  = ({| trace :=
          [EvConfigureLogging; EvManagerInit; EvParseArgs;
           EvImportModule ".broken.run" "executors"; EvGetAttr "FlowExecutor";
           EvCall []; EvOpen "process_script.sh" "rt"; EvRead;
           EvRun 42 [101; 99; 104; 111; 32; 104; 105; 10]%N; EvClose];
        logging_future_list := [log 1; log 2] |},
     Raise (PyExc "RuntimeError")).
Proof. vm_compute. reflexivity. Qed.

Example unreachable_world_aborts :
  main unreachable_world
  = ({| trace := [EvConfigureLogging; EvManagerInit];
        logging_future_list := [] |},
     Raise (PyExc "ConnectionError")).
Proof. vm_compute. reflexivity. Qed.

Example noargs_world_exits :
  main noargs_world
  = ({| trace :=
          [EvConfigureLogging; EvManagerInit; EvParseArgs;
           EvStderr "the following arguments are required: module"];
        logging_future_list := [log 1] |},
     Raise (SystemExit 2)).
Proof. vm_compute. reflexivity. Qed.

(** The same file under three locales. *)
Example utf8_crlf_world_script :
  EvRun 42 [233; 10]%N ∈ trace (main utf8_crlf_world).1.
Proof. apply list_elem_of_In. vm_compute. tauto. Qed.

Example latin1_world_script :
  EvRun 42 [195; 169; 10]%N ∈ trace (main latin1_world).1.
Proof. apply list_elem_of_In. vm_compute. tauto. Qed.

Example ascii_world_aborts :
  (main ascii_world).2 = Raise (PyExc "UnicodeDecodeError")
  ∧ (SRun ∉ steps (main ascii_world).1).
Proof.
  split; [vm_compute; reflexivity|].
  apply (bool_decide_unpack _). vm_compute. exact I.
Qed.

(** *** The sequence as a whole *)

(** X16.  Whatever the command line, the settings and the files, the first
    call after the configuration of logging is manager init, and it is made
    exactly once: also when the help is asked for or the argument is
    missing. *)
Theorem manager_init_always_first (w : World) :
  ∃ rest,
    steps (main w).1 = SConfigureLogging :: SManagerInit :: rest
    ∧ (SManagerInit ∉ rest).
Proof.
  unfold steps. unfold_program. simpl.
  destruct (manager_init w) as [ifuts [[]|iname]]; simpl;
    [destruct (parse_args w) as [m|msg|]; simpl|];
    repeat (case_step; try done);
    eexists; (split; [reflexivity|]); decide_steps.
Qed.

(** X17.  The event loop is closed exactly when the invocation ends
    normally: after any exception [loop.close()] is not reached. *)
Theorem loop_closed_iff_success (w : World) :
  SLoopClose ∈ steps (main w).1 ↔ (main w).2 = Ok ().
Proof.
  unfold steps. unfold_program. simpl.
  destruct (manager_init w) as [ifuts [[]|iname]]; simpl;
    [destruct (parse_args w) as [m|msg|]; simpl|];
    repeat (case_step; try done);
    (split; [intros H; by invert_elem H | intros H; try discriminate H]);
    decide_steps.
Qed.

Lemma gather_failed (futures : list Future) (f : Future) (st : St) :
  f ∈ futures → is_Some (fut_exception f) →
  ∃ name, gather futures st = (st, Raise (PyExc name)).
Proof.
  intros Hin Hexc. unfold gather.
  destruct (list_find (λ f, is_Some (fut_exception f)) futures)
    as [[i [fid [name|]]]|] eqn:Hfind.
  - by exists name.
  - apply list_find_Some in Hfind as (_ & [? Hs] & _). discriminate Hs.
  - apply list_find_None in Hfind.
    rewrite Forall_forall in Hfind. by apply Hfind in Hin.
Qed.

(** X18.  When a logging handle carries an exception, awaiting the handles
    raises: the invocation ends with an exception although [run] returned,
    and manager deinit is not called. *)
Theorem failed_logging_handle_skips_deinit (w : World) (st : St)
    (f : Future) :
  _sequential w configured = (st, Ok ()) →
  f ∈ logging_future_list st → is_Some (fut_exception f) →
  (∃ name, (main w).2 = Raise (PyExc name))
  ∧ steps (main w).1 = steps st ++ [SGatherLogging]
  ∧ (SManagerDeinit ∉ steps st).
Proof.
  intros Hseq Hin Hexc.
  assert (∃ name,
            main w
            = ({| trace := trace st
                           ++ [EvGatherLogging (logging_future_list st)];
                  logging_future_list := logging_future_list st |},
               Raise (PyExc name))) as [name Hmain].
  { rewrite main_after_sequential, Hseq.
    destruct (gather_failed _ f
                {| trace := trace st
                            ++ [EvGatherLogging (logging_future_list st)];
                   logging_future_list := logging_future_list st |}
                Hin Hexc) as [name Hg].
    exists name. unfold bind at 1. unfold emit at 1. unfold bind at 1.
    by rewrite Hg. }
  rewrite Hmain. cbn [fst snd].
  split; [by exists name|]. split.
  - unfold steps. cbn [trace]. by rewrite fmap_app.
  - clear Hmain. revert st Hseq Hin.
    unfold steps, configured. unfold_program. simpl.
    destruct (manager_init w) as [ifuts [[]|iname]]; simpl;
      [destruct (parse_args w) as [m|msg|]; simpl|];
      repeat (case_step; try done);
      intros st [= <-]; simpl; intros _; decide_steps.
Qed.

Lemma failed_logging_handle_skips_deinit_witness :
  (∃ name, (main lost_log_world).2 = Raise (PyExc name))
  ∧ (SManagerDeinit ∉ steps (main lost_log_world).1).
Proof.
  destruct (failed_logging_handle_skips_deinit lost_log_world
              (_sequential lost_log_world configured).1 failed_log)
    as (Hraise & Hsteps & Hnot).
  - vm_compute. reflexivity.
  - apply list_elem_of_In. vm_compute. tauto.
  - by eexists.
  - split; [exact Hraise|]. rewrite Hsteps.
    intros H. apply elem_of_app in H as [H|H]; [by apply Hnot|].
    by invert_elem H.
Defined.

(** X19.  The script file is closed exactly when it was opened: whenever
    [open] was called on an existing file the file is closed, also when the
    body of the [with] raises; it is opened and closed at most once. *)
Theorem file_closed_iff_opened (w : World) :
  (SClose ∈ steps (main w).1
   ↔ SOpen ∈ steps (main w).1 ∧ is_Some (files w !! PROCESS_SCRIPT w))
  ∧ (times SOpen (steps (main w).1) ≤ 1)%nat
  ∧ (times SClose (steps (main w).1) ≤ 1)%nat
  ∧ all_before SOpen SClose (steps (main w).1).
Proof.
  unfold steps. unfold_program. simpl.
  destruct (manager_init w) as [ifuts [[]|iname]]; simpl;
    [destruct (parse_args w) as [m|msg|]; simpl|];
    repeat (case_step; try done);
    (split;
     [ split;
       [ intros H; first [ by invert_elem H
                         | split; [decide_steps | by eexists] ]
       | intros [H [? Hs]]; first [ discriminate Hs
                                  | by invert_elem H
                                  | decide_steps ] ]
     | split; [vm_compute; lia|];
       split; [vm_compute; lia | decide_steps] ]).
Qed.

(** *** The text handed to [run] *)

Lemma translate_newlines_no_cr_aux (n : nat) : ∀ t : text,
  (length t ≤ n)%nat → 13%N ∉ translate_newlines t.
Proof.
  induction n as [|n IH]; intros [|c rest] Hlen; simpl in *;
    try apply not_elem_of_nil; [lia|].
  destruct (c =? 13)%N eqn:Hc.
  - apply not_elem_of_cons. split; [done|].
    destruct rest as [|c' rest']; [apply not_elem_of_nil|].
    destruct (c' =? 10)%N; apply IH; simpl in *; lia.
  - apply not_elem_of_cons. split.
    + intros <-. by rewrite N.eqb_refl in Hc.
    + apply IH. lia.
Qed.

Lemma between_spec lo hi b : between lo hi b = true ↔ (lo ≤ b ≤ hi)%N.
Proof.
  unfold between. rewrite andb_true_iff, !N.leb_le. tauto.
Qed.

(** Decoding UTF-8 yields a carriage return only from the byte [0x0D]: the
    code point of a sequence of several bytes is at least [0x80]. *)
Lemma utf8_decode_cr_aux (n : nat) : ∀ (bs : list N) (t : text),
  (length bs ≤ n)%nat → utf8_decode bs = Some t → 13%N ∈ t → 13%N ∈ bs.
Proof.
  induction n as [|n IH]; intros [|b0 r0] t Hlen; simpl in *;
    try (intros [= <-] H; by apply elem_of_nil in H); [lia|].
  destruct (b0 <? 0x80)%N eqn:H0.
  { intros Hd Hin. apply fmap_Some in Hd as (t' & Hd & ->).
    apply elem_of_cons in Hin as [<-|Hin]; [by left|].
    right. apply (IH r0 t'); [lia|done|done]. }
  destruct (between 0xC2 0xDF b0) eqn:H2.
  { apply between_spec in H2.
    destruct r0 as [|b1 r1]; [done|].
    destruct (is_cont b1) eqn:C1; [|done].
    apply between_spec in C1.
    intros Hd Hin. apply fmap_Some in Hd as (t' & Hd & ->).
    apply elem_of_cons in Hin as [Heq|Hin]; [lia|].
    do 2 right. apply (IH r1 t'); [simpl in *; lia|done|done]. }
  destruct (between 0xE0 0xEF b0) eqn:H3.
  { apply between_spec in H3.
    destruct r0 as [|b1 [|b2 r2]]; [done|done|].
    destruct (between (second_lo b0) (second_hi b0) b1 && is_cont b2)
      eqn:C; [|done].
    apply andb_true_iff in C as [C1 C2].
    apply between_spec in C1, C2. unfold second_lo in C1.
    intros Hd Hin. apply fmap_Some in Hd as (t' & Hd & ->).
    apply elem_of_cons in Hin as [Heq|Hin].
    - exfalso. destruct (b0 =? 0xE0)%N eqn:E;
        [apply N.eqb_eq in E | apply N.eqb_neq in E];
        destruct (b0 =? 0xF0)%N; lia.
    - do 3 right. apply (IH r2 t'); [simpl in *; lia|done|done]. }
  destruct (between 0xF0 0xF4 b0) eqn:H4; [|done].
  apply between_spec in H4.
  destruct r0 as [|b1 [|b2 [|b3 r3]]]; [done|done|done|].
  destruct (between (second_lo b0) (second_hi b0) b1 && is_cont b2
            && is_cont b3) eqn:C; [|done].
  apply andb_true_iff in C as [C C3].
  apply andb_true_iff in C as [C1 C2].
  apply between_spec in C1, C2, C3. unfold second_lo in C1.
  intros Hd Hin. apply fmap_Some in Hd as (t' & Hd & ->).
  apply elem_of_cons in Hin as [Heq|Hin].
  - exfalso. destruct (b0 =? 0xE0)%N eqn:E;
      [apply N.eqb_eq in E; lia|].
    destruct (b0 =? 0xF0)%N eqn:F;
      [apply N.eqb_eq in F | apply N.eqb_neq in F]; lia.
  - do 4 right. apply (IH r3 t'); [simpl in *; lia|done|done].
Qed.

Lemma utf8_decode_ascii (bs : list N) :
  Forall (λ b, (b < 0x80)%N) bs → utf8_decode bs = Some bs.
Proof.
  induction 1 as [|b bs Hb _ IH]; simpl; [done|].
  apply N.ltb_lt in Hb. by rewrite Hb, IH.
Qed.

Lemma cr_byte (content : list Byte.byte) :
  Byte.x0d ∉ content → 13%N ∉ Byte.to_N <$> content.
Proof.
  intros Hno Hin. apply list_elem_of_fmap in Hin as (b & Hb & Hin).
  apply Hno. assert (b = Byte.x0d) as <-; [|done].
  pose proof (Byte.of_to_N b) as Hof. rewrite <- Hb in Hof.
  by injection Hof.
Qed.

(** X21.  [run] never receives a carriage return: reading in text mode has
    turned every line ending into a line feed. *)
Theorem run_never_receives_cr (w : World) (pid : Z) (script : text) :
  EvRun pid script ∈ trace (main w).1 → 13%N ∉ script.
Proof.
  intros H. apply run_event_origin in H as (content & _ & Hr & _).
  unfold read_text in Hr. apply fmap_Some in Hr as (decoded & _ & ->).
  by apply (translate_newlines_no_cr_aux (length decoded)).
Qed.

Lemma run_never_receives_cr_witness :
  13%N ∉ ([233; 10]%N : text).
Proof.
  apply (run_never_receives_cr utf8_crlf_world 42%Z).
  apply list_elem_of_In. vm_compute. tauto.
Defined.

(** X22.  A script file that holds only ASCII bytes and no carriage return
    reaches [run] byte for byte, whatever the preferred encoding of the
    locale. *)
Theorem ascii_script_verbatim (w : World) (pid : Z) (script : text)
    (content : list Byte.byte) :
  EvRun pid script ∈ trace (main w).1 →
  files w !! PROCESS_SCRIPT w = Some content →
  Forall (λ b, (Byte.to_N b < 0x80)%N) content →
  Byte.x0d ∉ content →
  script = Byte.to_N <$> content.
Proof.
  intros H Hf Hascii Hcr.
  apply run_event_origin in H as (content' & Hf' & Hr & _).
  rewrite Hf in Hf'. injection Hf' as <-.
  assert (decode (preferred_encoding w) content = Some (Byte.to_N <$> content))
    as Hdec.
  { assert (Forall (λ b, (b < 0x80)%N) (Byte.to_N <$> content)) as Hbs
      by (by apply Forall_fmap).
    unfold decode. destruct (preferred_encoding w).
    - by apply utf8_decode_ascii.
    - done.
    - unfold ascii_decode.
      assert (forallb (λ b, (b <? 0x80)%N) (Byte.to_N <$> content) = true)
        as ->; [|done].
      apply forallb_forall. intros b Hb.
      rewrite Forall_forall in Hbs. apply N.ltb_lt, Hbs.
      by apply list_elem_of_In. }
  unfold read_text in Hr. rewrite Hdec in Hr. simpl in Hr.
  injection Hr as <-. apply translate_newlines_id. by apply cr_byte.
Qed.

Lemma ascii_script_verbatim_witness :
  ([101; 99; 104; 111; 32; 104; 105; 10]%N : text)
  = Byte.to_N <$> plain_script.
Proof.
  apply (ascii_script_verbatim
           (sample_world [".docker"] connected Latin_1 plain_script) 42%Z).
  - apply list_elem_of_In. vm_compute. tauto.
  - reflexivity.
  - repeat constructor.
  - intros H. by invert_elem H.
Defined.

(** X23.  Under a locale whose preferred encoding is UTF-8, a script file
    without the byte [0x0D] reaches [run] as its UTF-8 text. *)
Theorem utf8_script_without_cr (w : World) (pid : Z) (script : text)
    (content : list Byte.byte) :
  preferred_encoding w = UTF_8 →
  EvRun pid script ∈ trace (main w).1 →
  files w !! PROCESS_SCRIPT w = Some content →
  Byte.x0d ∉ content →
  decode UTF_8 content = Some script.
Proof.
  intros Henc H Hf Hcr.
  apply run_event_origin in H as (content' & Hf' & Hr & _).
  rewrite Hf in Hf'. injection Hf' as <-.
  unfold read_text in Hr. rewrite Henc in Hr.
  apply fmap_Some in Hr as (decoded & Hdec & ->).
  rewrite Hdec. f_equal. symmetry. apply translate_newlines_id.
  intros Hin. apply (cr_byte content Hcr).
  unfold decode in Hdec.
  by apply (utf8_decode_cr_aux (length (Byte.to_N <$> content)) _ decoded).
Qed.

Lemma utf8_script_without_cr_witness :
  decode UTF_8 [Byte.xc3; Byte.xa9; Byte.x0a] = Some [233; 10]%N.
Proof.
  apply (utf8_script_without_cr
           (sample_world [".docker"] connected UTF_8
              [Byte.xc3; Byte.xa9; Byte.x0a]) 42%Z).
  - reflexivity.
  - apply list_elem_of_In. vm_compute. tauto.
  - reflexivity.
  - intros H. by invert_elem H.
Defined.

(** X24.  Without ["id"] in the settings, or without the script file, no
    invocation gets to call [run] or to end normally, whatever the other
    collaborators do, and manager deinit is never called; without ["id"]
    the file is not even read, and without the file nothing is read or
    closed. *)
Theorem missing_id_or_script (w : World) :
  DATA w !! "id" = None ∨ files w !! PROCESS_SCRIPT w = None →
  (SRun ∉ steps (main w).1)
  ∧ (SRead ∉ steps (main w).1)
  ∧ (SManagerDeinit ∉ steps (main w).1)
  ∧ (main w).2 ≠ Ok ()
  ∧ (files w !! PROCESS_SCRIPT w = None → SClose ∉ steps (main w).1).
Proof.
  unfold steps. unfold_program. simpl.
  destruct (manager_init w) as [ifuts [[]|iname]]; simpl;
    [destruct (parse_args w) as [m|msg|]; simpl|];
    repeat (case_step; try done);
    intros Hmissing;
    try (destruct Hmissing as [Hmissing|Hmissing]; discriminate Hmissing);
    do 3 (split; [decide_steps|]);
    (split; [done|]);
    first [ intros _; decide_steps | intros Hnone; discriminate Hnone ].
Qed.

Lemma missing_id_or_script_witness :
  (SRead ∉ steps (main (without_id docker_world)).1)
  ∧ (main (without_id docker_world)).2 = Raise (PyExc "KeyError")
  ∧ (SClose ∉ steps (main (without_script docker_world)).1).
Proof.
  destruct (missing_id_or_script (without_id docker_world)
              (or_introl eq_refl)) as (_ & Hread & _).
  destruct (missing_id_or_script (without_script docker_world)
              (or_intror eq_refl)) as (_ & _ & _ & _ & Hclose).
  split; [exact Hread|]. split; [vm_compute; reflexivity|].
  exact (Hclose eq_refl).
Defined.

End BootstrapFacts.
